(** * The gRPC peer pool of groupcache (grpc.go)

    A shallow embedding of [GRPCPool]: the membership map [grpcGetters], the
    consistent-hash ring [peers], the constructor guarded by the package
    variable [grpcPoolCreated], the peer-selection function [PickPeer] and the
    five service handlers [Retrieve], [Delete], [AddPeers], [RemovePeers] and
    [SetPeers].

    The pool's mutex [mu] is held for the whole body of every function that
    touches [peers] or [grpcGetters], so each such function is modelled as one
    atomic state transformer.  Everything the pool does to the outside (dialing,
    closing a connection, writing a log line) is recorded in a [world] value
    that is threaded through the functions. *)

From Stdlib Require Import ZArith.
From stdpp Require Import gmap strings list fin_maps.

Local Open Scope string_scope.
Local Open Scope list_scope.
#[local] Set Warnings "-clear-no-such-hyp".

(** ** Errors, log lines and results *)

(** The [error] values built with [fmt.Errorf]; each constructor keeps the
    arguments of the format string. *)
Inductive error : Type :=
  | ErrConnect (address cause : string)
      (* "Failed to connect to [%s]: %v" *)
  | ErrGroupNotFound (group : string)
      (* "Unable to find group [%s]" *)
  | ErrRetrieve (group key cause : string).
      (* "Failed to retrieve [%s]: %v" *)

(** The lines written through logrus. *)
Inductive log_entry : Type :=
  | Warn_open_failed (peer : string) (err : error)
      (* log.WithError(err).Warnf("Failed to open connection to [%s]", peer) *)
  | Info_adding (peer : string)
      (* log.Infof("Adding peer [%s]", peer) *)
  | Info_removing (peer : string).
      (* log.Infof("Removing peer [%s]", peer) *)

(** A Go result pair [(value, error)] of which exactly one side is set. *)
Inductive result (A : Type) : Type :=
  | Ok (a : A)
  | Err (e : error).
Arguments Ok {A} a.
Arguments Err {A} e.

(** A call either returns or panics. *)
Inductive outcome (A : Type) : Type :=
  | Returned (a : A)
  | Panicked (msg : string).
Arguments Returned {A} a.
Arguments Panicked {A} msg.

(** [gcgrpc.Ack], the empty acknowledgment message. *)
Inductive Ack : Type := MkAck.

(** ** Peer connections *)

(** [grpcGetter]: [conn] is [None] for a nil [*grpc.ClientConn]; an open
    connection is named by the number the dial that created it received.
    [newGRPCGetter] allocates one getter per successful dial, so that number
    also identifies the getter object. *)
Record grpcGetter : Type := {
  address : string;
  conn : option nat
}.

Global Instance grpcGetter_eq_dec : EqDecision grpcGetter.
Proof. solve_decision. Defined.

(** What the pool has done to its environment. *)
Record world : Type := {
  next_conn : nat;          (* connections created so far *)
  dialed : list string;     (* every address handed to grpc.Dial, oldest first *)
  closed : gset nat;        (* connections on which Close was called *)
  logged : list log_entry   (* log lines, oldest first *)
}.

Definition world0 : world :=
  {| next_conn := 0; dialed := []; closed := ∅; logged := [] |}.

Definition write_log (e : log_entry) (w : world) : world :=
  {| next_conn := next_conn w; dialed := dialed w; closed := closed w;
     logged := logged w ++ [e] |}.

(** [(g *grpcGetter) close]. *)
Definition close (g : grpcGetter) (w : world) : world :=
  match conn g with
  | Some c =>
      {| next_conn := next_conn w; dialed := dialed w;
         closed := {[ c ]} ∪ closed w; logged := logged w |}
  | None => w
  end.

(** [(g *grpcGetter) GetURL]. *)
Definition GetURL (g : grpcGetter) : string := address g.

(** [grpc.DialOption] values; only [grpc.WithInsecure()] is named in the code. *)
Inductive DialOption : Type :=
  | WithInsecure
  | CustomDialOption (n : nat).

Section Dialing.

(** The transport: [dial_error a] is the error [grpc.Dial] reports for the
    address [a], [None] when the dial succeeds.  An address is reachable or
    not for the whole run; the options of the dial play no role. *)
Variable dial_error : string → option string.

(** [grpc.Dial]: the new connection, or the error. *)
Definition grpc_Dial (address : string) (dialOpts : list DialOption) (w : world)
    : (string + nat) * world :=
  match dial_error address with
  | Some err =>
      (inl err,
       {| next_conn := next_conn w; dialed := dialed w ++ [address];
          closed := closed w; logged := logged w |})
  | None =>
      (inr (next_conn w),
       {| next_conn := S (next_conn w); dialed := dialed w ++ [address];
          closed := closed w; logged := logged w |})
  end.

(** [newGRPCGetter]. *)
Definition newGRPCGetter (address : string) (dialOpts : list DialOption)
    (w : world) : result grpcGetter * world :=
  match grpc_Dial address dialOpts w with
  | (inl err, w') => (Err (ErrConnect address err), w')
  | (inr c, w') => (Ok {| address := address; conn := Some c |}, w')
  end.

End Dialing.

(** ** The hash ring *)

(** Modelled from the spec: [consistenthash.Map], whose source is not part of
    grpc.go.  The spec gives its interface only: [New(replicaCount, hashFn)],
    [Add(addresses...)], [Get(key)] and [IsEmpty()], with [Get] a
    deterministic function of the ring state and the key.  The ring state is
    the configuration it was built with and the addresses added to it, in
    order; the owner computation itself stays a parameter ([ring_owner]
    below). *)
Record ring (Hash : Type) : Type := {
  ring_replicas : Z;
  ring_hash : option Hash;
  ring_members : list string
}.
Arguments ring_replicas {Hash} _.
Arguments ring_hash {Hash} _.
Arguments ring_members {Hash} _.

Module consistenthash.

(** Modelled from the spec: [consistenthash.New] builds an empty ring with the
    given replica count and hash function. *)
Definition New {Hash : Type} (replicas : Z) (fn : option Hash) : ring Hash :=
  {| ring_replicas := replicas; ring_hash := fn; ring_members := [] |}.

(** Modelled from the spec: [consistenthash.Map.Add] with one address. *)
Definition Add {Hash : Type} (m : ring Hash) (key : string) : ring Hash :=
  {| ring_replicas := ring_replicas m; ring_hash := ring_hash m;
     ring_members := ring_members m ++ [key] |}.

(** Modelled from the spec: [consistenthash.Map.IsEmpty], true of a ring to
    which no address was added. *)
Definition IsEmpty {Hash : Type} (m : ring Hash) : bool :=
  match ring_members m with
  | [] => true
  | _ :: _ => false
  end.

End consistenthash.

(** ** The pool *)

(** [GRPCPoolOptions]; a nil [HashFn] or [PeerDialOptions] is [None]. *)
Record GRPCPoolOptions (Hash : Type) : Type := {
  Replicas : Z;
  HashFn : option Hash;
  PeerDialOptions : option (list DialOption)
}.
Arguments Replicas {Hash} _.
Arguments HashFn {Hash} _.
Arguments PeerDialOptions {Hash} _.

(** [GRPCPool] without its mutex. *)
Record GRPCPool (Hash : Type) : Type := {
  self : string;
  opts : GRPCPoolOptions Hash;
  peers : ring Hash;
  grpcGetters : gmap string grpcGetter
}.
Arguments self {Hash} _.
Arguments opts {Hash} _.
Arguments peers {Hash} _.
Arguments grpcGetters {Hash} _.

(** The dial options as the variadic argument [gp.opts.PeerDialOptions...]. *)
Definition dial_options {Hash : Type} (o : GRPCPoolOptions Hash) : list DialOption :=
  default [] (PeerDialOptions o).

(** The local variables of the first loop of [Set]. *)
Record set_locals (Hash : Type) : Type := {
  sl_world : world;
  sl_peers : ring Hash;                      (* gp.peers *)
  sl_old : gmap string grpcGetter;           (* gp.grpcGetters *)
  sl_temp : gmap string grpcGetter           (* tempGetters *)
}.
Arguments sl_world {Hash} _.
Arguments sl_peers {Hash} _.
Arguments sl_old {Hash} _.
Arguments sl_temp {Hash} _.

Section Pool.

Context {Hash : Type}.
Variable dial_error : string → option string.

Abbreviation pool := (GRPCPool Hash).
Abbreviation locals := (set_locals Hash).

(** One iteration of [for _, peer := range peers] in [Set]. *)
Definition Set_body (dialOpts : list DialOption) (peer : string)
    (s : locals) : locals :=
  match sl_old s !! peer with
  | Some getter =>
      {| sl_world := sl_world s;
         sl_peers := consistenthash.Add (sl_peers s) peer;
         sl_old := delete peer (sl_old s);
         sl_temp := <[peer := getter]> (sl_temp s) |}
  | None =>
      match newGRPCGetter dial_error peer dialOpts (sl_world s) with
      | (Err err, w) =>
          {| sl_world := write_log (Warn_open_failed peer err) w;
             sl_peers := sl_peers s;
             sl_old := sl_old s;
             sl_temp := sl_temp s |}
      | (Ok getter, w) =>
          {| sl_world := w;
             sl_peers := consistenthash.Add (sl_peers s) peer;
             sl_old := sl_old s;
             sl_temp := <[peer := getter]> (sl_temp s) |}
      end
  end.

Fixpoint Set_loop (dialOpts : list DialOption) (peers : list string)
    (s : locals) : locals :=
  match peers with
  | [] => s
  | peer :: rest => Set_loop dialOpts rest (Set_body dialOpts peer s)
  end.

(** The second loop of [Set]: every getter left in the old map is closed and
    deleted.  Go ranges over a map in no fixed order; the order only decides
    in which order the connections are closed, which [closed], a set, does
    not record. *)
Definition close_all (m : gmap string grpcGetter) (w : world) : world :=
  foldr (λ kv acc, close kv.2 acc) w (map_to_list m).

(** [(gp *GRPCPool) Set] ([Set] alone is a reserved word here). *)
Definition GRPCPool_Set (peers : list string) (gp : pool) (w : world) : pool * world :=
  let s0 := {| sl_world := w;
               sl_peers := consistenthash.New (Replicas (opts gp)) (HashFn (opts gp));
               sl_old := grpcGetters gp;
               sl_temp := ∅ |} in
  let s := Set_loop (dial_options (opts gp)) peers s0 in
  ({| self := self gp; opts := opts gp;
      peers := sl_peers s; grpcGetters := sl_temp s |},
   close_all (sl_old s) (sl_world s)).

(** [(gp *GRPCPool) GetAll]: a fresh slice with every getter of the map, in
    the order the range delivers them. *)
Definition GetAll (gp : pool) : list grpcGetter :=
  (map_to_list (grpcGetters gp)).*2.

(** [(gp *GRPCPool) SetPeers]. *)
Definition SetPeers (PeerAddr : list string) (gp : pool) (w : world)
    : result Ack * (pool * world) :=
  (Ok MkAck, GRPCPool_Set PeerAddr gp w).

(** One iteration of the loop of [AddPeers]. *)
Definition AddPeers_body (peer : string) (st : pool * world) : pool * world :=
  let (gp, w) := st in
  match grpcGetters gp !! peer with
  | Some _ => (gp, w)
  | None =>
      match newGRPCGetter dial_error peer (dial_options (opts gp)) w with
      | (Err err, w') => (gp, write_log (Warn_open_failed peer err) w')
      | (Ok getter, w') =>
          ({| self := self gp; opts := opts gp;
              peers := consistenthash.Add (peers gp) peer;
              grpcGetters := <[peer := getter]> (grpcGetters gp) |},
           write_log (Info_adding peer) w')
      end
  end.

Fixpoint AddPeers_loop (peers : list string) (st : pool * world) : pool * world :=
  match peers with
  | [] => st
  | peer :: rest => AddPeers_loop rest (AddPeers_body peer st)
  end.

(** [(gp *GRPCPool) AddPeers]. *)
Definition AddPeers (PeerAddr : list string) (gp : pool) (w : world)
    : result Ack * (pool * world) :=
  (Ok MkAck, AddPeers_loop PeerAddr (gp, w)).

(** One iteration of the loop of [RemovePeers]. *)
Definition RemovePeers_body (peer : string) (st : pool * world) : pool * world :=
  let (gp, w) := st in
  match grpcGetters gp !! peer with
  | Some p =>
      ({| self := self gp; opts := opts gp;
          peers := peers gp;
          grpcGetters := delete peer (grpcGetters gp) |},
       close p (write_log (Info_removing peer) w))
  | None => (gp, w)
  end.

Fixpoint RemovePeers_loop (peers : list string) (st : pool * world) : pool * world :=
  match peers with
  | [] => st
  | peer :: rest => RemovePeers_loop rest (RemovePeers_body peer st)
  end.

(** [(gp *GRPCPool) RemovePeers]. *)
Definition RemovePeers (PeerAddr : list string) (gp : pool) (w : world)
    : result Ack * (pool * world) :=
  (Ok MkAck, RemovePeers_loop PeerAddr (gp, w)).

(** The ring's owner computation, [consistenthash.Map.Get]. *)
Variable ring_owner : ring Hash → string → string.

(** [(gp *GRPCPool) PickPeer].  The first component is the getter pointer
    ([None] for nil), the second the boolean. *)
Definition PickPeer (gp : pool) (key : string) : option grpcGetter * bool :=
  if consistenthash.IsEmpty (peers gp) then (None, false)
  else
    let peer := ring_owner (peers gp) key in
    if decide (peer ≠ self gp) then (grpcGetters gp !! peer, true)
    else (None, false).

End Pool.

Arguments Set_body : simpl never.
Arguments GRPCPool_Set : simpl never.
Arguments AddPeers_body : simpl never.
Arguments RemovePeers_body : simpl never.

(** ** Construction *)

(** The package-level state the constructor reads and writes: the variable
    [grpcPoolCreated], and what the two registrations leave behind.
    Modelled from the spec: [RegisterPeerPicker] and
    [gcgrpc.RegisterPeerServer], declared outside grpc.go; the spec has the
    constructor register the pool as the process-wide peer-selection provider
    and its handlers on the supplied server, which is recorded here as a flag
    and as the list of servers. *)
Record process : Type := {
  grpcPoolCreated : bool;
  picker_registered : bool;
  peer_servers : list nat
}.

(** A process in which nothing has run yet. *)
Definition process0 : process :=
  {| grpcPoolCreated := false; picker_registered := false; peer_servers := [] |}.

(** The zero value of [GRPCPoolOptions]. *)
Definition zero_options {Hash : Type} : GRPCPoolOptions Hash :=
  {| Replicas := 0; HashFn := None; PeerDialOptions := None |}.

Section Construction.

Context {Hash : Type}.

(** The constant [defaultReplicas], declared in another file of the package. *)
Variable defaultReplicas : Z.

(** [NewGRPCPoolOptions]; [server] names the [*grpc.Server], [opts] is [None]
    for a nil pointer.  A panic leaves the process as it was: the guard is the
    first statement. *)
Definition NewGRPCPoolOptions (self : string) (server : nat)
    (opts : option (GRPCPoolOptions Hash)) (p : process)
    : outcome (GRPCPool Hash) * process :=
  if grpcPoolCreated p then
    (Panicked "NewGRPCPool must be called only once", p)
  else
    let o0 := default zero_options opts in
    let o1 :=
      if (Replicas o0 =? 0)%Z then
        {| Replicas := defaultReplicas; HashFn := HashFn o0;
           PeerDialOptions := PeerDialOptions o0 |}
      else o0 in
    let o2 :=
      match PeerDialOptions o1 with
      | None =>
          {| Replicas := Replicas o1; HashFn := HashFn o1;
             PeerDialOptions := Some [WithInsecure] |}
      | Some _ => o1
      end in
    (Returned
       {| self := self; opts := o2;
          peers := consistenthash.New (Replicas o2) (HashFn o2);
          grpcGetters := ∅ |},
     {| grpcPoolCreated := true;
        picker_registered := true;
        peer_servers := peer_servers p ++ [server] |}).

(** [NewGRPCPool]. *)
Definition NewGRPCPool (self : string) (server : nat) (p : process)
    : outcome (GRPCPool Hash) * process :=
  NewGRPCPoolOptions self server None p.

End Construction.

(** ** The inbound fetch and invalidate handlers *)

(** Modelled from the spec: the server-request counter of a group, "a
    per-group counter incremented once per inbound Retrieve".  Its type is
    declared outside grpc.go; the code calls [Add(1)] on it.  It is taken to be
    a 64-bit signed integer, so that [Add] wraps around. *)
Definition int64_wrap (z : Z) : Z :=
  ((z + 2 ^ 63) mod 2 ^ 64 - 2 ^ 63)%Z.

Definition AtomicInt_Add (i n : Z) : Z := int64_wrap (i + n).

(** Modelled from the spec: the local cache registry ([GetGroup] and [Group]),
    whose source is not part of grpc.go.  The spec lists [GetGroup(name)],
    [Group.Get(ctx, key, sink)], [Group.localRemove(key)] and the
    server-request counter as separate operations of a group.  A group is
    therefore its counter [Stats.ServerRequests] next to a local state [L]
    that [Get] and [localRemove] work on. *)
Record Group (L : Type) : Type := {
  ServerRequests : Z;
  local : L
}.
Arguments ServerRequests {L} _.
Arguments local {L} _.

(** What [Group.Get] leaves behind: the bytes written to the sink, or the
    error it returns. *)
Inductive fetched : Type :=
  | Fetched (value : list Byte.byte)
  | FetchFailed (cause : string).

Record RetrieveRequest : Type := {
  rr_Group : string;
  rr_Key : string
}.

Record DeleteRequest : Type := {
  dr_Group : string;
  dr_Key : string
}.

Record RetrieveResponse : Type := {
  Value : list Byte.byte
}.

(** [group.Stats.ServerRequests.Add(1)]. *)
Definition record_server_request {L : Type} (g : Group L) : Group L :=
  {| ServerRequests := AtomicInt_Add (ServerRequests g) 1; local := local g |}.

Section Service.

Context {L : Type}.

(** [Group.Get] with an allocating byte-slice sink, and [Group.localRemove],
    on the local state of a group. *)
Variable Group_Get : L → string → fetched * L.
Variable Group_localRemove : L → string → L.

Abbreviation registry := (gmap string (Group L)).

(** Modelled from the spec: [GetGroup(name)], the group registered under the
    name, [None] for nil. *)
Definition GetGroup (groups : registry) (name : string) : option (Group L) :=
  groups !! name.

(** [(gp *GRPCPool) Retrieve].  The group is reached through a pointer, so
    what the handler does to it shows in the registry. *)
Definition Retrieve (req : RetrieveRequest) (groups : registry)
    : result RetrieveResponse * registry :=
  match GetGroup groups (rr_Group req) with
  | None => (Err (ErrGroupNotFound (rr_Group req)), groups)
  | Some group =>
      let group1 := record_server_request group in
      match Group_Get (local group1) (rr_Key req) with
      | (FetchFailed cause, l) =>
          (Err (ErrRetrieve (rr_Group req) (rr_Key req) cause),
           <[rr_Group req := {| ServerRequests := ServerRequests group1; local := l |}]> groups)
      | (Fetched value, l) =>
          (Ok {| Value := value |},
           <[rr_Group req := {| ServerRequests := ServerRequests group1; local := l |}]> groups)
      end
  end.

(** [(gp *GRPCPool) Delete]. *)
Definition Delete (req : DeleteRequest) (groups : registry)
    : result Ack * registry :=
  match GetGroup groups (dr_Group req) with
  | None => (Err (ErrGroupNotFound (dr_Group req)), groups)
  | Some group =>
      let group1 := record_server_request group in
      let group2 :=
        {| ServerRequests := ServerRequests group1;
           local := Group_localRemove (local group1) (dr_Key req) |} in
      (Ok MkAck, <[dr_Group req := group2]> groups)
  end.

End Service.

(** ** Vocabulary of the properties *)

(** A map files every getter under the address the getter is bound to. *)
Definition keyed_by_address (m : gmap string grpcGetter) : Prop :=
  ∀ a g, m !! a = Some g → address g = a.

(** The addresses in the ring are exactly the keys of the connection map. *)
Definition ring_matches_connections {Hash : Type} (gp : GRPCPool Hash) : Prop :=
  ∀ a, a ∈ ring_members (peers gp) ↔ is_Some (grpcGetters gp !! a).

(** Every key of the connection map is in the ring. *)
Definition connections_in_ring {Hash : Type} (gp : GRPCPool Hash) : Prop :=
  ∀ a, is_Some (grpcGetters gp !! a) → a ∈ ring_members (peers gp).

(** The membership requests a pool serves, and a run of them. *)
Inductive request : Type :=
  | ReqSetPeers (PeerAddr : list string)
  | ReqAddPeers (PeerAddr : list string)
  | ReqRemovePeers (PeerAddr : list string).

Definition serve {Hash : Type} (dial_error : string → option string)
    (r : request) (st : GRPCPool Hash * world) : GRPCPool Hash * world :=
  match r with
  | ReqSetPeers l => (SetPeers dial_error l st.1 st.2).2
  | ReqAddPeers l => (AddPeers dial_error l st.1 st.2).2
  | ReqRemovePeers l => (RemovePeers l st.1 st.2).2
  end.

Fixpoint serve_all {Hash : Type} (dial_error : string → option string)
    (rs : list request) (st : GRPCPool Hash * world) : GRPCPool Hash * world :=
  match rs with
  | [] => st
  | r :: rest => serve_all dial_error rest (serve dial_error r st)
  end.

(** A transport on which every dial succeeds. *)
Definition all_reachable : string → option string := λ _, None.

(** A pool as the constructor leaves it, for member ["A"], with the default
    options and 50 replicas; the hash function type plays no role. *)
Definition pool_A : GRPCPool unit :=
  {| self := "A";
     opts := {| Replicas := 50; HashFn := None; PeerDialOptions := Some [WithInsecure] |};
     peers := consistenthash.New 50 None;
     grpcGetters := ∅ |}.

(** A ring owner function for the examples: the member added first.  It is
    deterministic and returns a member of every non-empty ring. *)
Definition first_member {Hash : Type} (r : ring Hash) (key : string) : string :=
  hd "" (ring_members r).

(** Two [SetPeers] calls in a row with the same list [P]: the second call
    creates no connection, dials nothing and leaves every entry of the
    connection map as the first call left it. *)
Definition SetPeers_twice_creates_nothing {Hash : Type}
    (dial_error : string → option string) (P : list string)
    (gp : GRPCPool Hash) (w : world) : Prop :=
  let st1 := (SetPeers dial_error P gp w).2 in
  let st2 := (SetPeers dial_error P st1.1 st1.2).2 in
  next_conn st2.2 = next_conn st1.2 ∧
  dialed st2.2 = dialed st1.2 ∧
  ∀ a, grpcGetters st2.1 !! a = grpcGetters st1.1 !! a.

(** Two [SetPeers] calls in a row with lists [P] and [Q]: an address in both
    lists holds after the second call the getter it held after the first. *)
Definition SetPeers_keeps_common {Hash : Type}
    (dial_error : string → option string) (P Q : list string)
    (gp : GRPCPool Hash) (w : world) : Prop :=
  let st1 := (SetPeers dial_error P gp w).2 in
  let st2 := (SetPeers dial_error Q st1.1 st1.2).2 in
  ∀ a, a ∈ P → a ∈ Q → grpcGetters st2.1 !! a = grpcGetters st1.1 !! a.

(** A local cache for the examples: keys to bytes.  A fetch of a missing key
    fails; removal deletes the key. *)
Definition sample_Get (l : gmap string (list Byte.byte)) (key : string)
    : fetched * gmap string (list Byte.byte) :=
  match l !! key with
  | Some v => (Fetched v, l)
  | None => (FetchFailed "no value", l)
  end.

Definition sample_localRemove (l : gmap string (list Byte.byte)) (key : string)
    : gmap string (list Byte.byte) :=
  delete key l.

(** A registry with the one group ["g"], which has served five requests and
    holds one byte under ["k"]. *)
Definition sample_groups : gmap string (Group (gmap string (list Byte.byte))) :=
  {[ "g" := {| ServerRequests := 5; local := {[ "k" := [Byte.x01] ]} |} ]}.

(** Example runs from [pool_A]: ["B"] added; then removed again; the
    membership set to ["B"; "C"]; and a transport that refuses ["C"]. *)
Definition st_B : GRPCPool unit * world :=
  (AddPeers all_reachable ["B"] pool_A world0).2.

Definition st_B_removed : GRPCPool unit * world :=
  (RemovePeers ["B"] st_B.1 st_B.2).2.

Definition st_BC : GRPCPool unit * world :=
  (SetPeers all_reachable ["B"; "C"] pool_A world0).2.

Definition refuses_C : string → option string :=
  λ a, if decide (a = "C") then Some "connection refused" else None.

(** The address [a] is filed in [m] with a getter whose connection is [c]. *)
Definition holds_conn (m : gmap string grpcGetter) (c : nat) (a : string) : Prop :=
  ∃ g, m !! a = Some g ∧ conn g = Some c.

(** The connections of the members are in good standing: each was created by
    a dial of this environment and is not closed, only connections that were
    created are closed, and no connection is filed under two addresses. *)
Definition connections_live {Hash : Type} (gp : GRPCPool Hash) (w : world) : Prop :=
  (∀ a c, holds_conn (grpcGetters gp) c a → (c < next_conn w)%nat ∧ c ∉ closed w) ∧
  (∀ c, c ∈ closed w → (c < next_conn w)%nat) ∧
  (∀ a b c, holds_conn (grpcGetters gp) c a → holds_conn (grpcGetters gp) c b → a = b).

(** The same for the two maps of the first loop of [Set], which between them
    hold every connection at most once. *)
Definition set_locals_live {Hash : Type} (s : set_locals Hash) : Prop :=
  (∀ a c, holds_conn (sl_old s) c a ∨ holds_conn (sl_temp s) c a →
          (c < next_conn (sl_world s))%nat ∧ c ∉ closed (sl_world s)) ∧
  (∀ c, c ∈ closed (sl_world s) → (c < next_conn (sl_world s))%nat) ∧
  (∀ a b c, holds_conn (sl_old s) c a → holds_conn (sl_old s) c b → a = b) ∧
  (∀ a b c, holds_conn (sl_temp s) c a → holds_conn (sl_temp s) c b → a = b) ∧
  (∀ a b c, holds_conn (sl_old s) c a → holds_conn (sl_temp s) c b → False).

(** The inbound fetch and invalidate calls, and a run of them over the
    registry. *)
Inductive rpc : Type :=
  | RpcRetrieve (req : RetrieveRequest)
  | RpcDelete (req : DeleteRequest).

Definition rpc_group (r : rpc) : string :=
  match r with
  | RpcRetrieve req => rr_Group req
  | RpcDelete req => dr_Group req
  end.

Definition handle {L : Type} (Group_Get : L → string → fetched * L)
    (Group_localRemove : L → string → L) (r : rpc)
    (groups : gmap string (Group L)) : gmap string (Group L) :=
  match r with
  | RpcRetrieve req => (Retrieve Group_Get req groups).2
  | RpcDelete req => (Delete Group_localRemove req groups).2
  end.

Fixpoint handle_all {L : Type} (Group_Get : L → string → fetched * L)
    (Group_localRemove : L → string → L) (rs : list rpc)
    (groups : gmap string (Group L)) : gmap string (Group L) :=
  match rs with
  | [] => groups
  | r :: rest =>
      handle_all Group_Get Group_localRemove rest
        (handle Group_Get Group_localRemove r groups)
  end.

(** Every member has a connection: no getter of the map has a nil [conn]. *)
Definition members_connected {Hash : Type} (gp : GRPCPool Hash) : Prop :=
  ∀ a g, grpcGetters gp !! a = Some g → is_Some (conn g).

(** A transport that refuses ["B"]. *)
Definition refuses_B : string → option string :=
  λ a, if decide (a = "B") then Some "connection refused" else None.

(** * Properties *)

(** ** The environment *)

Lemma close_closed (g : grpcGetter) (w : world) (c : nat) :
  c ∈ closed (close g w) ↔ conn g = Some c ∨ c ∈ closed w.
Proof.
  unfold close. destruct (conn g) as [c'|]; simpl.
  - rewrite elem_of_union, elem_of_singleton. split.
    + intros [->|?]; auto.
    + intros [[= ->]|?]; auto.
  - split; [auto | intros [?|?]; [discriminate | assumption]].
Qed.

Lemma close_other_fields (g : grpcGetter) (w : world) :
  next_conn (close g w) = next_conn w ∧
  dialed (close g w) = dialed w ∧
  logged (close g w) = logged w.
Proof. unfold close. destruct (conn g); auto. Qed.

Section PoolFacts.

Context {Hash : Type}.
Variable dial_error : string → option string.

Abbreviation pool := (GRPCPool Hash).
Abbreviation locals := (set_locals Hash).

(** *** Closing what is left of the old map *)

Lemma close_all_closed (m : gmap string grpcGetter) (w : world) (c : nat) :
  c ∈ closed (close_all m w) ↔
  (∃ a g, m !! a = Some g ∧ conn g = Some c) ∨ c ∈ closed w.
Proof.
  unfold close_all.
  assert (∀ l : list (string * grpcGetter),
    c ∈ closed (foldr (λ kv acc, close kv.2 acc) w l) ↔
    (∃ a g, (a, g) ∈ l ∧ conn g = Some c) ∨ c ∈ closed w) as Hl.
  { induction l as [|[a g] l IH]; simpl.
    - split; [auto | intros [(a & g & Hin & _)|?]; [inversion Hin | assumption]].
    - rewrite close_closed, IH. split.
      + intros [Hc|[(a' & g' & Hin & Hc)|Hc]]; [left; exists a, g | left; exists a', g' | right];
          try split; auto; [left | right; assumption].
      + intros [(a' & g' & Hin & Hc)|Hc]; [|auto].
        apply elem_of_cons in Hin as [[= -> ->]|Hin]; [auto|].
        right; left; exists a', g'; auto. }
  rewrite Hl. split.
  - intros [(a & g & Hin & Hc)|?]; [|auto].
    left; exists a, g. split; [by apply elem_of_map_to_list | done].
  - intros [(a & g & Hin & Hc)|?]; [|auto].
    left; exists a, g. split; [by apply elem_of_map_to_list | done].
Qed.

Lemma close_all_other_fields (m : gmap string grpcGetter) (w : world) :
  next_conn (close_all m w) = next_conn w ∧
  dialed (close_all m w) = dialed w ∧
  logged (close_all m w) = logged w.
Proof.
  unfold close_all. induction (map_to_list m) as [|[a g] l IH]; simpl; [done|].
  destruct (close_other_fields g (foldr (λ kv acc, close kv.2 acc) w l)) as (-> & -> & ->).
  exact IH.
Qed.

Lemma close_all_empty (w : world) : close_all ∅ w = w.
Proof. unfold close_all. by rewrite map_to_list_empty. Qed.

(** *** The first loop of [Set] *)

Lemma Set_body_reuse (d : list DialOption) (peer : string) (s : locals) (g : grpcGetter) :
  sl_old s !! peer = Some g →
  Set_body dial_error d peer s =
    {| sl_world := sl_world s;
       sl_peers := consistenthash.Add (sl_peers s) peer;
       sl_old := delete peer (sl_old s);
       sl_temp := <[peer := g]> (sl_temp s) |}.
Proof. intros H. unfold Set_body. by rewrite H. Qed.

Lemma Set_body_dial_ok (d : list DialOption) (peer : string) (s : locals) :
  sl_old s !! peer = None → dial_error peer = None →
  Set_body dial_error d peer s =
    {| sl_world :=
         {| next_conn := S (next_conn (sl_world s));
            dialed := dialed (sl_world s) ++ [peer];
            closed := closed (sl_world s);
            logged := logged (sl_world s) |};
       sl_peers := consistenthash.Add (sl_peers s) peer;
       sl_old := sl_old s;
       sl_temp :=
         <[peer := {| address := peer; conn := Some (next_conn (sl_world s)) |}]> (sl_temp s) |}.
Proof.
  intros H D. unfold Set_body, newGRPCGetter, grpc_Dial. by rewrite H, D.
Qed.

Lemma Set_body_dial_failed (d : list DialOption) (peer cause : string) (s : locals) :
  sl_old s !! peer = None → dial_error peer = Some cause →
  Set_body dial_error d peer s =
    {| sl_world :=
         {| next_conn := next_conn (sl_world s);
            dialed := dialed (sl_world s) ++ [peer];
            closed := closed (sl_world s);
            logged := logged (sl_world s) ++ [Warn_open_failed peer (ErrConnect peer cause)] |};
       sl_peers := sl_peers s;
       sl_old := sl_old s;
       sl_temp := sl_temp s |}.
Proof.
  intros H D. unfold Set_body, newGRPCGetter, grpc_Dial. by rewrite H, D.
Qed.

(** The three ways an iteration can go. *)
Ltac Set_body_cases d peer s :=
  let g := fresh "g" in
  let cause := fresh "cause" in
  let Hold := fresh "Hold" in
  let Hdial := fresh "Hdial" in
  destruct (sl_old s !! peer) as [g|] eqn:Hold;
  [ rewrite (Set_body_reuse d peer s g Hold)
  | destruct (dial_error peer) as [cause|] eqn:Hdial;
    [ rewrite (Set_body_dial_failed d peer cause s Hold Hdial)
    | rewrite (Set_body_dial_ok d peer s Hold Hdial) ] ].

(** The new ring and the new map grow together. *)
Lemma Set_loop_ring_temp (d : list DialOption) (P : list string) (s : locals) :
  (∀ a, a ∈ ring_members (sl_peers s) ↔ is_Some (sl_temp s !! a)) →
  ∀ a, a ∈ ring_members (sl_peers (Set_loop dial_error d P s)) ↔
       is_Some (sl_temp (Set_loop dial_error d P s) !! a).
Proof.
  revert s. induction P as [|peer P IH]; intros s Hs; simpl; [exact Hs|].
  apply IH. intros a.
  Set_body_cases d peer s; simpl; try apply Hs;
    rewrite elem_of_app, list_elem_of_singleton, lookup_insert_is_Some, Hs;
    destruct (decide (peer = a)) as [->|]; intuition congruence.
Qed.

(** What is left in the old map: exactly the entries whose address is not in
    the list. *)
Lemma Set_loop_old (d : list DialOption) (P : list string) (s : locals) (a : string) :
  sl_old (Set_loop dial_error d P s) !! a =
  if decide (a ∈ P) then None else sl_old s !! a.
Proof.
  revert s. induction P as [|peer P IH]; intros s; simpl.
  - destruct (decide (a ∈ [])) as [H|]; [by apply elem_of_nil in H | done].
  - rewrite IH.
    destruct (decide (a ∈ P)) as [HP|HP].
    + rewrite decide_True; [done | by right].
    + destruct (decide (a = peer)) as [->|Hne].
      * rewrite decide_True by left.
        Set_body_cases d peer s; simpl; [by rewrite lookup_delete_eq | done | done].
      * rewrite decide_False by (rewrite elem_of_cons; naive_solver).
        Set_body_cases d peer s; simpl; [by rewrite lookup_delete_ne | done | done].
Qed.

(** An address that is not in the list does not enter the new map. *)
Lemma Set_loop_temp_notin (d : list DialOption) (P : list string) (s : locals) (a : string) :
  a ∉ P → sl_temp (Set_loop dial_error d P s) !! a = sl_temp s !! a.
Proof.
  revert s. induction P as [|peer P IH]; intros s Ha; simpl; [done|].
  apply not_elem_of_cons in Ha as [Hne HP].
  rewrite IH by done.
  Set_body_cases d peer s; simpl; by rewrite ?lookup_insert_ne.
Qed.

(** Which addresses are in the new map. *)
Lemma Set_loop_temp_dom (d : list DialOption) (P : list string) (s : locals) (a : string) :
  is_Some (sl_temp (Set_loop dial_error d P s) !! a) ↔
  is_Some (sl_temp s !! a) ∨
  (a ∈ P ∧ (is_Some (sl_old s !! a) ∨ dial_error a = None)).
Proof.
  revert s. induction P as [|peer P IH]; intros s; simpl.
  - split; [auto | intros [?|[H _]]; [done | by apply elem_of_nil in H]].
  - rewrite IH, elem_of_cons.
    Set_body_cases d peer s; simpl.
    + rewrite lookup_insert_is_Some.
      destruct (decide (a = peer)) as [->|Hne].
      * rewrite Hold. naive_solver.
      * rewrite lookup_delete_ne by done. naive_solver.
    + destruct (decide (a = peer)) as [->|Hne]; [|naive_solver].
      rewrite Hold, Hdial. split.
      * intros [?|(? & [[? [=]]|[=]])]; auto.
      * intros [?|([_|?] & [[? [=]]|[=]])]; auto.
    + rewrite lookup_insert_is_Some.
      destruct (decide (a = peer)) as [->|Hne]; naive_solver.
Qed.

(** A getter of the old map whose address is listed once is carried over as
    it is. *)
Lemma Set_loop_temp_reuse (d : list DialOption) (P : list string) (s : locals)
    (a : string) (g : grpcGetter) :
  NoDup P → a ∈ P → sl_old s !! a = Some g →
  sl_temp (Set_loop dial_error d P s) !! a = Some g.
Proof.
  revert s. induction P as [|peer P IH]; intros s Hnd Ha Hg; simpl.
  - by apply elem_of_nil in Ha.
  - apply NoDup_cons in Hnd as [Hpeer Hnd].
    destruct (decide (a = peer)) as [->|Hne].
    + rewrite Set_loop_temp_notin by done.
      rewrite (Set_body_reuse d peer s g Hg); simpl. apply lookup_insert_eq.
    + apply elem_of_cons in Ha as [?|Ha]; [done|].
      apply IH; [done | done |].
      Set_body_cases d peer s; simpl; [by rewrite lookup_delete_ne | done | done].
Qed.

Lemma keyed_by_address_insert (m : gmap string grpcGetter) (a : string) (g : grpcGetter) :
  keyed_by_address m → address g = a → keyed_by_address (<[a := g]> m).
Proof.
  intros Hm Hg a' g'. rewrite lookup_insert.
  case_decide as E; [intros [= <-]; congruence | apply Hm].
Qed.

Lemma keyed_by_address_delete (m : gmap string grpcGetter) (a : string) :
  keyed_by_address m → keyed_by_address (delete a m).
Proof.
  intros Hm a' g'. rewrite lookup_delete.
  case_decide; [done | apply Hm].
Qed.

(** Every getter of the new map is bound to the address it is filed under,
    provided that holds of the maps the loop starts from. *)
Lemma Set_loop_keyed (d : list DialOption) (P : list string) (s : locals) :
  keyed_by_address (sl_old s) → keyed_by_address (sl_temp s) →
  keyed_by_address (sl_temp (Set_loop dial_error d P s)).
Proof.
  revert s. induction P as [|peer P IH]; intros s Ho Ht; simpl; [done|].
  apply IH; Set_body_cases d peer s; simpl;
    auto using keyed_by_address_insert, keyed_by_address_delete.
Qed.

(** The loop closes nothing, never lowers the connection counter and never
    drops a log line. *)
Lemma Set_loop_closed (d : list DialOption) (P : list string) (s : locals) :
  closed (sl_world (Set_loop dial_error d P s)) = closed (sl_world s).
Proof.
  revert s. induction P as [|peer P IH]; intros s; simpl; [done|].
  rewrite IH. by Set_body_cases d peer s.
Qed.

Lemma Set_loop_logged (d : list DialOption) (P : list string) (s : locals) (e : log_entry) :
  e ∈ logged (sl_world s) → e ∈ logged (sl_world (Set_loop dial_error d P s)).
Proof.
  revert s. induction P as [|peer P IH]; intros s He; simpl; [done|].
  apply IH. Set_body_cases d peer s; simpl; [done | | done].
  apply elem_of_app. by left.
Qed.

(** A failed dial of an address the old map does not hold is logged. *)
Lemma Set_loop_warns (d : list DialOption) (P : list string) (s : locals)
    (a cause : string) :
  a ∈ P → sl_old s !! a = None → dial_error a = Some cause →
  Warn_open_failed a (ErrConnect a cause) ∈ logged (sl_world (Set_loop dial_error d P s)).
Proof.
  revert s. induction P as [|peer P IH]; intros s Ha Ho Hd; simpl.
  - by apply elem_of_nil in Ha.
  - destruct (decide (a = peer)) as [->|Hne].
    + apply Set_loop_logged.
      rewrite (Set_body_dial_failed d peer cause s Ho Hd); simpl.
      apply elem_of_app. right. by apply list_elem_of_singleton.
    + apply elem_of_cons in Ha as [?|Ha]; [done|].
      apply IH; [done | | done].
      Set_body_cases d peer s; simpl; [by rewrite lookup_delete_ne | done | done].
Qed.

(** When every listed address can be dialed, the new ring holds the list as
    it is. *)
Lemma Set_loop_ring_all (d : list DialOption) (P : list string) (s : locals) :
  (∀ a, a ∈ P → dial_error a = None) →
  ring_members (sl_peers (Set_loop dial_error d P s)) = ring_members (sl_peers s) ++ P.
Proof.
  revert s. induction P as [|peer P IH]; intros s HP; simpl.
  - by rewrite app_nil_r.
  - rewrite IH by (intros a Ha; apply HP; by right).
    assert (dial_error peer = None) as Hpeer by (apply HP; by left).
    Set_body_cases d peer s; simpl; [| congruence |]; by rewrite <- app_assoc.
Qed.

(** When the list has no duplicates and the old map holds every listed
    address, the loop leaves the environment alone. *)
Lemma Set_loop_world_all_held (d : list DialOption) (P : list string) (s : locals) :
  NoDup P → (∀ a, a ∈ P → is_Some (sl_old s !! a)) →
  sl_world (Set_loop dial_error d P s) = sl_world s.
Proof.
  revert s. induction P as [|peer P IH]; intros s Hnd HP; simpl; [done|].
  apply NoDup_cons in Hnd as [Hpeer Hnd].
  destruct (HP peer) as [g Hg]; [by left|].
  rewrite IH; [by rewrite (Set_body_reuse d peer s g Hg) | done |].
  intros a Ha. rewrite (Set_body_reuse d peer s g Hg); simpl.
  rewrite lookup_delete_ne by (intros ->; done).
  apply HP. by right.
Qed.

(** *** [Set] as a whole *)

Lemma Set_lookup_dom (P : list string) (gp : pool) (w : world) (a : string) :
  is_Some (grpcGetters (GRPCPool_Set dial_error P gp w).1 !! a) ↔
  a ∈ P ∧ (is_Some (grpcGetters gp !! a) ∨ dial_error a = None).
Proof.
  unfold GRPCPool_Set; simpl. rewrite Set_loop_temp_dom; simpl.
  rewrite lookup_empty. split; [intros [[? [=]]|?]; done | auto].
Qed.

Lemma Set_ring_matches (P : list string) (gp : pool) (w : world) :
  ring_matches_connections (GRPCPool_Set dial_error P gp w).1.
Proof.
  unfold ring_matches_connections, GRPCPool_Set; simpl.
  apply Set_loop_ring_temp; simpl. intros a.
  rewrite lookup_empty. split; [intros H; by apply elem_of_nil in H | intros [? [=]]].
Qed.

Lemma Set_keyed (P : list string) (gp : pool) (w : world) :
  keyed_by_address (grpcGetters gp) →
  keyed_by_address (grpcGetters (GRPCPool_Set dial_error P gp w).1).
Proof.
  intros Hk. unfold GRPCPool_Set; simpl.
  apply Set_loop_keyed; simpl; [done | intros a g; by rewrite lookup_empty].
Qed.

Lemma Set_closed (P : list string) (gp : pool) (w : world) (c : nat) :
  c ∈ closed (GRPCPool_Set dial_error P gp w).2 ↔
  (∃ a g, (a ∉ P) ∧ grpcGetters gp !! a = Some g ∧ conn g = Some c) ∨ c ∈ closed w.
Proof.
  unfold GRPCPool_Set; simpl.
  rewrite close_all_closed, Set_loop_closed; simpl.
  split; (intros [(a & g & H)|?]; [left; exists a, g | by right]).
  - rewrite Set_loop_old in H; simpl in H.
    destruct (decide (a ∈ P)); [by destruct H | by destruct H].
  - destruct H as (Ha & Hg & Hc).
    rewrite Set_loop_old; simpl. by rewrite decide_False.
Qed.

Lemma Set_self_opts (P : list string) (gp : pool) (w : world) :
  self (GRPCPool_Set dial_error P gp w).1 = self gp ∧
  opts (GRPCPool_Set dial_error P gp w).1 = opts gp.
Proof. done. Qed.

Lemma ring_eq (r1 r2 : ring Hash) :
  ring_replicas r1 = ring_replicas r2 → ring_hash r1 = ring_hash r2 →
  ring_members r1 = ring_members r2 → r1 = r2.
Proof. destruct r1, r2; simpl; congruence. Qed.

Lemma Set_loop_ring_config (d : list DialOption) (P : list string) (s : locals) :
  ring_replicas (sl_peers (Set_loop dial_error d P s)) = ring_replicas (sl_peers s) ∧
  ring_hash (sl_peers (Set_loop dial_error d P s)) = ring_hash (sl_peers s).
Proof.
  revert s. induction P as [|peer P IH]; intros s; simpl; [done|].
  destruct (IH (Set_body dial_error d peer s)) as [-> ->].
  by Set_body_cases d peer s.
Qed.

(** With every listed address reachable the members are exactly the list. *)
Lemma Set_members_all_reachable (P : list string) (gp : pool) (w : world) (a : string) :
  (∀ a, a ∈ P → dial_error a = None) →
  is_Some (grpcGetters (GRPCPool_Set dial_error P gp w).1 !! a) ↔ a ∈ P.
Proof.
  intros HP. rewrite Set_lookup_dom. split; [by intros [? _] | auto].
Qed.

(** [Set] with a duplicate-free, reachable list, run a second time, changes
    neither the pool nor the environment. *)
Lemma Set_idempotent (P : list string) (gp : pool) (w : world) :
  NoDup P → (∀ a, a ∈ P → dial_error a = None) →
  GRPCPool_Set dial_error P (GRPCPool_Set dial_error P gp w).1
                            (GRPCPool_Set dial_error P gp w).2 =
  GRPCPool_Set dial_error P gp w.
Proof.
  intros Hnd HP.
  assert (∀ a, is_Some (grpcGetters (GRPCPool_Set dial_error P gp w).1 !! a) ↔ a ∈ P) as Hdom
    by (intros a; by apply Set_members_all_reachable).
  destruct (GRPCPool_Set dial_error P gp w) as [gp1 w1] eqn:E; simpl in *.
  assert (self gp1 = self gp ∧ opts gp1 = opts gp ∧
          ring_members (peers gp1) = P ∧
          ring_replicas (peers gp1) = Replicas (opts gp) ∧
          ring_hash (peers gp1) = HashFn (opts gp)) as (Hself & Hopts & Hmem & Hrep & Hhash).
  { unfold GRPCPool_Set in E. injection E as <- _; simpl.
    rewrite Set_loop_ring_all by done.
    destruct (Set_loop_ring_config (dial_options (opts gp)) P
      {| sl_world := w;
         sl_peers := consistenthash.New (Replicas (opts gp)) (HashFn (opts gp));
         sl_old := grpcGetters gp; sl_temp := ∅ |}) as [-> ->].
    done. }
  unfold GRPCPool_Set.
  set (s0 := {| sl_world := w1;
                sl_peers := consistenthash.New (Replicas (opts gp1)) (HashFn (opts gp1));
                sl_old := grpcGetters gp1; sl_temp := ∅ |}).
  assert (sl_world (Set_loop dial_error (dial_options (opts gp1)) P s0) = w1) as ->.
  { rewrite Set_loop_world_all_held; [done | done |].
    intros a Ha; simpl. by apply Hdom. }
  assert (sl_old (Set_loop dial_error (dial_options (opts gp1)) P s0) = ∅) as ->.
  { apply map_eq. intros a. rewrite Set_loop_old, lookup_empty; simpl.
    case_decide as Ha; [done|].
    apply eq_None_not_Some. by rewrite Hdom. }
  assert (sl_temp (Set_loop dial_error (dial_options (opts gp1)) P s0) = grpcGetters gp1) as ->.
  { apply map_eq. intros a.
    destruct (decide (a ∈ P)) as [Ha|Ha].
    - destruct (proj2 (Hdom a) Ha) as [g Hg].
      rewrite Hg. by apply Set_loop_temp_reuse.
    - rewrite Set_loop_temp_notin by done; simpl. rewrite lookup_empty.
      symmetry. apply eq_None_not_Some. by rewrite Hdom. }
  rewrite close_all_empty. f_equal.
  destruct gp1 as [self1 opts1 peers1 map1]; simpl in *. f_equal.
  symmetry. apply ring_eq.
  - destruct (Set_loop_ring_config (dial_options opts1) P s0) as [-> _]; simpl. congruence.
  - destruct (Set_loop_ring_config (dial_options opts1) P s0) as [_ ->]; simpl. congruence.
  - rewrite Set_loop_ring_all by done. simpl. congruence.
Qed.

(** *** [AddPeers] *)

Lemma AddPeers_body_present (peer : string) (gp : pool) (w : world) (g : grpcGetter) :
  grpcGetters gp !! peer = Some g →
  AddPeers_body dial_error peer (gp, w) = (gp, w).
Proof. intros H. unfold AddPeers_body. by rewrite H. Qed.

Lemma AddPeers_body_dial_ok (peer : string) (gp : pool) (w : world) :
  grpcGetters gp !! peer = None → dial_error peer = None →
  AddPeers_body dial_error peer (gp, w) =
    ({| self := self gp; opts := opts gp;
        peers := consistenthash.Add (peers gp) peer;
        grpcGetters :=
          <[peer := {| address := peer; conn := Some (next_conn w) |}]> (grpcGetters gp) |},
     {| next_conn := S (next_conn w); dialed := dialed w ++ [peer];
        closed := closed w; logged := logged w ++ [Info_adding peer] |}).
Proof.
  intros H D. unfold AddPeers_body, newGRPCGetter, grpc_Dial. by rewrite H, D.
Qed.

Lemma AddPeers_body_dial_failed (peer cause : string) (gp : pool) (w : world) :
  grpcGetters gp !! peer = None → dial_error peer = Some cause →
  AddPeers_body dial_error peer (gp, w) =
    (gp,
     {| next_conn := next_conn w; dialed := dialed w ++ [peer];
        closed := closed w;
        logged := logged w ++ [Warn_open_failed peer (ErrConnect peer cause)] |}).
Proof.
  intros H D. unfold AddPeers_body, newGRPCGetter, grpc_Dial. by rewrite H, D.
Qed.

Ltac AddPeers_body_cases peer gp w :=
  let g := fresh "g" in
  let cause := fresh "cause" in
  let Hold := fresh "Hold" in
  let Hdial := fresh "Hdial" in
  destruct (grpcGetters gp !! peer) as [g|] eqn:Hold;
  [ rewrite (AddPeers_body_present peer gp w g Hold)
  | destruct (dial_error peer) as [cause|] eqn:Hdial;
    [ rewrite (AddPeers_body_dial_failed peer cause gp w Hold Hdial)
    | rewrite (AddPeers_body_dial_ok peer gp w Hold Hdial) ] ].

(** A property of pool and environment that every iteration keeps is kept by
    the loop. *)
Lemma AddPeers_loop_ind (I : pool * world → Prop) (l : list string) (st : pool * world) :
  (∀ peer st', I st' → I (AddPeers_body dial_error peer st')) →
  I st → I (AddPeers_loop dial_error l st).
Proof.
  intros Hstep. revert st. induction l as [|peer l IH]; intros st Hst; simpl; auto.
Qed.

Lemma AddPeers_ring_matches (l : list string) (gp : pool) (w : world) :
  ring_matches_connections gp →
  ring_matches_connections (AddPeers_loop dial_error l (gp, w)).1.
Proof.
  intros H0.
  apply (AddPeers_loop_ind (λ st, ring_matches_connections st.1) l (gp, w)); [|exact H0].
  intros peer [gp' w'] H; simpl in H.
  AddPeers_body_cases peer gp' w'; simpl; [done | done |].
  intros a; simpl.
  rewrite elem_of_app, list_elem_of_singleton, lookup_insert_is_Some, (H a).
  destruct (decide (peer = a)) as [->|]; intuition congruence.
Qed.

Lemma AddPeers_keyed (l : list string) (gp : pool) (w : world) :
  keyed_by_address (grpcGetters gp) →
  keyed_by_address (grpcGetters (AddPeers_loop dial_error l (gp, w)).1).
Proof.
  intros H0.
  apply (AddPeers_loop_ind (λ st, keyed_by_address (grpcGetters st.1)) l (gp, w)); [|exact H0].
  intros peer [gp' w'] H; simpl in H.
  AddPeers_body_cases peer gp' w'; simpl; auto using keyed_by_address_insert.
Qed.

(** Members stay, with the getter they had. *)
Lemma AddPeers_keeps (l : list string) (gp : pool) (w : world) (a : string) (g : grpcGetter) :
  grpcGetters gp !! a = Some g →
  grpcGetters (AddPeers_loop dial_error l (gp, w)).1 !! a = Some g.
Proof.
  intros H0.
  apply (AddPeers_loop_ind (λ st, grpcGetters st.1 !! a = Some g) l (gp, w)); [|exact H0].
  intros peer [gp' w'] H; simpl in H.
  AddPeers_body_cases peer gp' w'; simpl; [done | done |].
  rewrite lookup_insert_ne; [done | congruence].
Qed.

(** An address that cannot be dialed does not become a member. *)
Lemma AddPeers_unreachable (l : list string) (gp : pool) (w : world) (a cause : string) :
  dial_error a = Some cause → grpcGetters gp !! a = None →
  grpcGetters (AddPeers_loop dial_error l (gp, w)).1 !! a = None.
Proof.
  intros Hd H0.
  apply (AddPeers_loop_ind (λ st, grpcGetters st.1 !! a = None) l (gp, w)); [|exact H0].
  intros peer [gp' w'] H; simpl in H.
  AddPeers_body_cases peer gp' w'; simpl; [done | done |].
  rewrite lookup_insert_ne; [done | congruence].
Qed.

Lemma AddPeers_logged (l : list string) (gp : pool) (w : world) (e : log_entry) :
  e ∈ logged w → e ∈ logged (AddPeers_loop dial_error l (gp, w)).2.
Proof.
  intros H0.
  apply (AddPeers_loop_ind (λ st, e ∈ logged st.2) l (gp, w)); [|exact H0].
  intros peer [gp' w'] H; simpl in H.
  AddPeers_body_cases peer gp' w'; simpl; [done | |]; apply elem_of_app; by left.
Qed.

Lemma AddPeers_warns (l : list string) (gp : pool) (w : world) (a cause : string) :
  a ∈ l → dial_error a = Some cause → grpcGetters gp !! a = None →
  Warn_open_failed a (ErrConnect a cause) ∈ logged (AddPeers_loop dial_error l (gp, w)).2.
Proof.
  revert gp w. induction l as [|peer l IH]; intros gp w Ha Hd Hg; simpl.
  - by apply elem_of_nil in Ha.
  - destruct (decide (a = peer)) as [->|Hne].
    + rewrite (AddPeers_body_dial_failed peer cause gp w Hg Hd).
      apply AddPeers_logged; simpl. apply elem_of_app. right.
      by apply list_elem_of_singleton.
    + apply elem_of_cons in Ha as [?|Ha]; [done|].
      destruct (AddPeers_body dial_error peer (gp, w)) as [gp' w'] eqn:E.
      apply IH; [done | done |].
      change gp' with (gp', w').1. rewrite <- E.
      change (AddPeers_body dial_error peer (gp, w)) with
        (AddPeers_loop dial_error [peer] (gp, w)).
      by apply (AddPeers_unreachable [peer] gp w a cause).
Qed.

Lemma AddPeers_closed (l : list string) (gp : pool) (w : world) :
  closed (AddPeers_loop dial_error l (gp, w)).2 = closed w.
Proof.
  apply (AddPeers_loop_ind (λ st, closed st.2 = closed w) l (gp, w)); [|done].
  intros peer [gp' w'] H; simpl in H.
  by AddPeers_body_cases peer gp' w'.
Qed.

(** The agreement holds after [Set] whatever the pool was
    ([Set_ring_matches]) and is kept by [AddPeers]; after [RemovePeers] only
    one half is left: every key of the map is in the ring. *)
Lemma ring_matches_connections_in_ring (gp : pool) :
  ring_matches_connections gp → connections_in_ring gp.
Proof. intros H a Ha. by apply H. Qed.

Lemma AddPeers_connections_in_ring (l : list string) (gp : pool) (w : world) :
  connections_in_ring gp →
  connections_in_ring (AddPeers_loop dial_error l (gp, w)).1.
Proof.
  intros H0.
  apply (AddPeers_loop_ind (λ st, connections_in_ring st.1) l (gp, w)); [|exact H0].
  intros peer [gp' w'] H; simpl in H.
  AddPeers_body_cases peer gp' w'; simpl; [done | done |].
  intros a; simpl.
  rewrite elem_of_app, list_elem_of_singleton, lookup_insert_is_Some.
  intros [->|[_ Ha]]; [by right | left; by apply H].
Qed.

(** The connection counter never goes down in the loop, and a getter of the
    new map is one the loop started with, in either map, or was created by a
    dial of the loop for the address it is filed under. *)
Lemma Set_loop_next_conn_mono (d : list DialOption) (P : list string) (s : locals) :
  (next_conn (sl_world s) ≤ next_conn (sl_world (Set_loop dial_error d P s)))%nat.
Proof.
  revert s. induction P as [|peer P IH]; intros s; simpl; [done|].
  etrans; [|apply IH]. Set_body_cases d peer s; simpl; lia.
Qed.

Lemma Set_loop_temp_origin (d : list DialOption) (P : list string) (s : locals)
    (a : string) (g : grpcGetter) :
  sl_temp (Set_loop dial_error d P s) !! a = Some g →
  sl_temp s !! a = Some g ∨ sl_old s !! a = Some g ∨
  (address g = a ∧
   ∃ c, conn g = Some c ∧
        (next_conn (sl_world s) ≤ c <
         next_conn (sl_world (Set_loop dial_error d P s)))%nat).
Proof.
  revert s. induction P as [|peer P IH]; intros s; simpl; [by left|].
  intros Hg. apply IH in Hg.
  pose proof (Set_loop_next_conn_mono d P (Set_body dial_error d peer s)) as Hmono.
  revert Hg Hmono. Set_body_cases d peer s; cbn [sl_temp sl_old sl_world next_conn].
  - intros [Ht|[Ho|Hf]] _.
    + rewrite lookup_insert in Ht. case_decide as E; [|by left].
      injection Ht as <-. subst a. by right; left.
    + apply lookup_delete_Some in Ho as [_ Ho]. by right; left.
    + by right; right.
  - intros [Ht|[Ho|Hf]] _; auto.
  - intros [Ht|[Ho|(Ha & c & Hc & Hlt)]] Hmono.
    + rewrite lookup_insert in Ht. case_decide as E; [|by left].
      injection Ht as <-. subst a. right; right. split; [done|].
      exists (next_conn (sl_world s)). split; [done | lia].
    + by right; left.
    + right; right. split; [done|]. exists c. split; [done | lia].
Qed.

(** *** Membership replacement *)

(** Reuse across two [SetPeers] calls in a row, for lists without
    duplicates: when [P] is duplicate-free and every address in it is
    reachable, a second [SetPeers P] creates no connection, dials nothing and
    leaves the whole pool and environment as the first call left them; and
    when [Q] is duplicate-free, an address in both [P] and [Q] holds after
    [SetPeers Q] the very getter it held after [SetPeers P]. *)
Theorem SetPeers_reuses_connections (P Q : list string) (gp : pool) (w : world) :
  (NoDup P → (∀ a, a ∈ P → dial_error a = None) →
     SetPeers_twice_creates_nothing dial_error P gp w ∧
     (SetPeers dial_error P (SetPeers dial_error P gp w).2.1
                            (SetPeers dial_error P gp w).2.2).2 =
     (SetPeers dial_error P gp w).2) ∧
  (NoDup Q → SetPeers_keeps_common dial_error P Q gp w).
Proof.
  split.
  - intros Hnd HP.
    unfold SetPeers_twice_creates_nothing, SetPeers; cbv zeta; cbn [fst snd].
    by rewrite (Set_idempotent P gp w Hnd HP).
  - intros Hnd. unfold SetPeers_keeps_common, SetPeers; cbv zeta; cbn [fst snd].
    intros a HaP HaQ.
    destruct (grpcGetters (GRPCPool_Set dial_error P gp w).1 !! a) as [g|] eqn:E.
    + unfold GRPCPool_Set at 1; simpl. by apply Set_loop_temp_reuse.
    + apply eq_None_not_Some. rewrite Set_lookup_dom, E.
      intros [_ [[? [=]]|Hd]].
      assert (is_Some (grpcGetters (GRPCPool_Set dial_error P gp w).1 !! a)) as [? Hs].
      { apply Set_lookup_dom. auto. }
      congruence.
Qed.

(** C5.  [SetPeers] with a list whose addresses are all reachable, on a pool
    whose getters are filed under their own address: the addresses of the
    getters [GetAll] returns are the distinct addresses of the list, each once;
    the ring is non-empty exactly when the list is; a getter the pool held
    for an address outside the list has its connection closed and is neither
    in the connection map nor among the getters [GetAll] returns.  The getters
    [GetAll] returns are the entries of the connection map and no others, and
    for every listed address the entry is a getter bound to that address that
    [GetAll] returns: the one the pool held for the address, or one whose
    connection was created during the call. *)
Theorem SetPeers_all_reachable (P : list string) (gp : pool) (w : world) :
  (∀ a, a ∈ P → dial_error a = None) →
  keyed_by_address (grpcGetters gp) →
  GetURL <$> GetAll (SetPeers dial_error P gp w).2.1 ≡ₚ remove_dups P ∧
  (consistenthash.IsEmpty (peers (SetPeers dial_error P gp w).2.1) = false ↔ P ≠ []) ∧
  (∀ a g, grpcGetters gp !! a = Some g → a ∉ P →
     (∀ c, conn g = Some c → c ∈ closed (SetPeers dial_error P gp w).2.2) ∧
     grpcGetters (SetPeers dial_error P gp w).2.1 !! a = None ∧
     g ∉ GetAll (SetPeers dial_error P gp w).2.1) ∧
  (∀ g, g ∈ GetAll (SetPeers dial_error P gp w).2.1 ↔
        ∃ a, a ∈ P ∧ grpcGetters (SetPeers dial_error P gp w).2.1 !! a = Some g) ∧
  (∀ a, a ∈ P →
     ∃ g, grpcGetters (SetPeers dial_error P gp w).2.1 !! a = Some g ∧
          g ∈ GetAll (SetPeers dial_error P gp w).2.1 ∧
          GetURL g = a ∧
          (grpcGetters gp !! a = Some g ∨
           ∃ c, conn g = Some c ∧
                (next_conn w ≤ c < next_conn (SetPeers dial_error P gp w).2.2)%nat)).
Proof.
  intros HP Hk. unfold SetPeers; cbn [fst snd].
  pose proof (Set_keyed P gp w Hk) as Hk'.
  assert (∀ a, is_Some (grpcGetters (GRPCPool_Set dial_error P gp w).1 !! a) ↔ a ∈ P) as Hdom
    by (intros a; by apply Set_members_all_reachable).
  assert (∀ g, g ∈ GetAll (GRPCPool_Set dial_error P gp w).1 ↔
               ∃ a, grpcGetters (GRPCPool_Set dial_error P gp w).1 !! a = Some g) as Hall.
  { intros g. unfold GetAll. rewrite list_elem_of_fmap. split.
    - intros ([a g'] & -> & Hin). exists a. by apply elem_of_map_to_list.
    - intros [a Ha]. exists (a, g). split; [done | by apply elem_of_map_to_list]. }
  split; [|split; [|split; [|split]]].
  - unfold GetAll.
    assert (GetURL <$> (map_to_list (grpcGetters (GRPCPool_Set dial_error P gp w).1)).*2 =
            (map_to_list (grpcGetters (GRPCPool_Set dial_error P gp w).1)).*1) as ->.
    { assert (∀ l : list (string * grpcGetter),
        (∀ a g, (a, g) ∈ l → address g = a) → GetURL <$> l.*2 = l.*1) as Hl.
      { induction l as [|[a g] l IH]; intros H; simpl; [done|].
        f_equal; [apply H; by left | apply IH; intros; apply H; by right]. }
      apply Hl. intros a g Hin. apply Hk'. by apply elem_of_map_to_list. }
    apply NoDup_Permutation.
    + apply NoDup_fst_map_to_list.
    + apply NoDup_remove_dups.
    + intros a. rewrite elem_of_remove_dups, <- Hdom, list_elem_of_fmap. split.
      * intros ([a' g] & -> & Hin). exists g. by apply elem_of_map_to_list.
      * intros [g Hg]. exists (a, g). split; [done | by apply elem_of_map_to_list].
  - unfold GRPCPool_Set, consistenthash.IsEmpty; cbn [fst peers].
    rewrite Set_loop_ring_all by done; simpl. by destruct P.
  - intros a g Hg Ha. split; [|split].
    + intros c Hc. apply Set_closed. left. by exists a, g.
    + apply eq_None_not_Some. by rewrite Hdom.
    + unfold GetAll. rewrite list_elem_of_fmap.
      intros ([a' g'] & -> & Hin); simpl in *.
      apply elem_of_map_to_list in Hin.
      assert (a' = a) as -> by (rewrite <- (Hk' a' g' Hin); by apply Hk).
      apply Ha, Hdom. by exists g'.
  - intros g. rewrite Hall. split.
    + intros [a Ha]. exists a. split; [|done]. apply Hdom. by exists g.
    + intros (a & _ & Ha). by exists a.
  - intros a Ha. destruct (proj2 (Hdom a) Ha) as [g Hg].
    exists g. split; [done|]. split; [apply Hall; by exists a|].
    split; [by apply Hk'|].
    revert Hg. unfold GRPCPool_Set; cbn [fst snd grpcGetters].
    set (s0 := {| sl_world := w;
                  sl_peers := consistenthash.New (Replicas (opts gp)) (HashFn (opts gp));
                  sl_old := grpcGetters gp; sl_temp := ∅ |}).
    destruct (close_all_other_fields
      (sl_old (Set_loop dial_error (dial_options (opts gp)) P s0))
      (sl_world (Set_loop dial_error (dial_options (opts gp)) P s0))) as (-> & _ & _).
    intros Hg. apply Set_loop_temp_origin in Hg as [Ht|[Ho|(_ & c & Hc & Hlt)]].
    + unfold s0 in Ht; cbn [sl_temp] in Ht. by rewrite lookup_empty in Ht.
    + left. exact Ho.
    + right. exists c. split; [done | exact Hlt].
Qed.

(** [SetPeers] and [AddPeers] acknowledge whatever the dials did; an
    address of the list that is not a member and whose dial fails is not a
    member afterwards, and the failure is in the log. *)
Theorem connect_failures_not_reported (l : list string) (gp : pool) (w : world) :
  (SetPeers dial_error l gp w).1 = Ok MkAck ∧
  (AddPeers dial_error l gp w).1 = Ok MkAck ∧
  ∀ a cause, a ∈ l → dial_error a = Some cause → grpcGetters gp !! a = None →
    grpcGetters (SetPeers dial_error l gp w).2.1 !! a = None ∧
    Warn_open_failed a (ErrConnect a cause) ∈ logged (SetPeers dial_error l gp w).2.2 ∧
    grpcGetters (AddPeers dial_error l gp w).2.1 !! a = None ∧
    Warn_open_failed a (ErrConnect a cause) ∈ logged (AddPeers dial_error l gp w).2.2.
Proof.
  split; [done | split; [done|]].
  intros a cause Ha Hd Hg. unfold SetPeers, AddPeers; cbn [fst snd].
  split; [|split; [|split]].
  - apply eq_None_not_Some. rewrite Set_lookup_dom, Hg, Hd.
    intros [_ [[? [=]]|[=]]].
  - unfold GRPCPool_Set; simpl.
    destruct (close_all_other_fields
      (sl_old (Set_loop dial_error (dial_options (opts gp)) l
         {| sl_world := w;
            sl_peers := consistenthash.New (Replicas (opts gp)) (HashFn (opts gp));
            sl_old := grpcGetters gp; sl_temp := ∅ |}))
      (sl_world (Set_loop dial_error (dial_options (opts gp)) l
         {| sl_world := w;
            sl_peers := consistenthash.New (Replicas (opts gp)) (HashFn (opts gp));
            sl_old := grpcGetters gp; sl_temp := ∅ |}))) as (_ & _ & ->).
    by apply Set_loop_warns.
  - by apply (AddPeers_unreachable l gp w a cause).
  - by apply AddPeers_warns.
Qed.

End PoolFacts.

Section RemovalFacts.

Context {Hash : Type}.

Abbreviation pool := (GRPCPool Hash).

(** *** [RemovePeers] *)

Lemma RemovePeers_body_present (peer : string) (gp : pool) (w : world) (p : grpcGetter) :
  grpcGetters gp !! peer = Some p →
  RemovePeers_body peer (gp, w) =
    ({| self := self gp; opts := opts gp; peers := peers gp;
        grpcGetters := delete peer (grpcGetters gp) |},
     close p (write_log (Info_removing peer) w)).
Proof. intros H. unfold RemovePeers_body. by rewrite H. Qed.

Lemma RemovePeers_body_absent (peer : string) (gp : pool) (w : world) :
  grpcGetters gp !! peer = None → RemovePeers_body peer (gp, w) = (gp, w).
Proof. intros H. unfold RemovePeers_body. by rewrite H. Qed.

Ltac RemovePeers_body_cases peer gp w :=
  let p := fresh "p" in
  let Hold := fresh "Hold" in
  destruct (grpcGetters gp !! peer) as [p|] eqn:Hold;
  [ rewrite (RemovePeers_body_present peer gp w p Hold)
  | rewrite (RemovePeers_body_absent peer gp w Hold) ].

Lemma RemovePeers_loop_ind (I : pool * world → Prop) (l : list string) (st : pool * world) :
  (∀ peer st', I st' → I (RemovePeers_body peer st')) →
  I st → I (RemovePeers_loop l st).
Proof.
  intros Hstep. revert st. induction l as [|peer l IH]; intros st Hst; simpl; auto.
Qed.

(** The loop never touches the ring, nor [self], nor the options. *)
Lemma RemovePeers_peers (l : list string) (gp : pool) (w : world) :
  peers (RemovePeers_loop l (gp, w)).1 = peers gp ∧
  self (RemovePeers_loop l (gp, w)).1 = self gp ∧
  opts (RemovePeers_loop l (gp, w)).1 = opts gp.
Proof.
  apply (RemovePeers_loop_ind
    (λ st, peers st.1 = peers gp ∧ self st.1 = self gp ∧ opts st.1 = opts gp)
    l (gp, w)); [|done].
  intros peer [gp' w'] H; simpl in H.
  by RemovePeers_body_cases peer gp' w'.
Qed.

(** The connection map afterwards. *)
Lemma RemovePeers_lookup (l : list string) (gp : pool) (w : world) (a : string) :
  grpcGetters (RemovePeers_loop l (gp, w)).1 !! a =
  if decide (a ∈ l) then None else grpcGetters gp !! a.
Proof.
  revert gp w. induction l as [|peer l IH]; intros gp w; simpl.
  - destruct (decide (a ∈ [])) as [H|]; [by apply elem_of_nil in H | done].
  - destruct (RemovePeers_body peer (gp, w)) as [gp' w'] eqn:E.
    rewrite IH.
    assert (grpcGetters gp' = delete peer (grpcGetters gp)) as ->.
    { revert E. RemovePeers_body_cases peer gp w; intros [= <- <-]; simpl; [done|].
      symmetry. by apply delete_id. }
    destruct (decide (a ∈ l)) as [Hl|Hl].
    + rewrite decide_True; [done | by right].
    + destruct (decide (a = peer)) as [->|Hne].
      * rewrite decide_True by left. apply lookup_delete_eq.
      * rewrite decide_False by (rewrite elem_of_cons; intuition).
        by apply lookup_delete_ne.
Qed.

(** The connections closed afterwards: those closed before, and those of the
    listed members. *)
Lemma RemovePeers_closed (l : list string) (gp : pool) (w : world) (c : nat) :
  c ∈ closed (RemovePeers_loop l (gp, w)).2 ↔
  (∃ a g, a ∈ l ∧ grpcGetters gp !! a = Some g ∧ conn g = Some c) ∨ c ∈ closed w.
Proof.
  revert gp w. induction l as [|peer l IH]; intros gp w; simpl.
  - split; [auto | intros [(a & g & Ha & _)|?]; [by apply elem_of_nil in Ha | done]].
  - RemovePeers_body_cases peer gp w; rewrite IH; simpl.
    + rewrite close_closed; simpl. split.
      * intros [(a & g & Ha & Hg & Hc)|[Hc|Hc]]; [left; exists a, g | left; exists peer, p | by right].
        -- apply lookup_delete_Some in Hg as [Hne Hg]. repeat split; [by right | done | done].
        -- repeat split; [by left | done | done].
      * intros [(a & g & Ha & Hg & Hc)|Hc]; [|by right; right].
        destruct (decide (a = peer)) as [->|Hne].
        -- right; left. congruence.
        -- left. exists a, g. apply elem_of_cons in Ha as [?|Ha]; [done|].
           repeat split; [done | by rewrite lookup_delete_ne | done].
    + split; (intros [(a & g & Ha & Hg & Hc)|Hc]; [left; exists a, g | by right]).
      * repeat split; [by right | done | done].
      * apply elem_of_cons in Ha as [->|Ha]; [congruence | done].
Qed.

Lemma RemovePeers_keyed (l : list string) (gp : pool) (w : world) :
  keyed_by_address (grpcGetters gp) →
  keyed_by_address (grpcGetters (RemovePeers_loop l (gp, w)).1).
Proof.
  intros Hk a g. rewrite RemovePeers_lookup.
  case_decide; [done | apply Hk].
Qed.

Lemma RemovePeers_connections_in_ring (l : list string) (gp : pool) (w : world) :
  connections_in_ring gp → connections_in_ring (RemovePeers_loop l (gp, w)).1.
Proof.
  intros Hk a. rewrite RemovePeers_lookup.
  destruct (RemovePeers_peers l gp w) as (-> & _ & _).
  case_decide; [by intros [? ?] | apply Hk].
Qed.

(** Removing addresses that are not members changes nothing. *)
Lemma RemovePeers_not_member (l : list string) (gp : pool) (w : world) :
  (∀ a, a ∈ l → grpcGetters gp !! a = None) →
  RemovePeers l gp w = (Ok MkAck, (gp, w)).
Proof.
  unfold RemovePeers. intros Hl. f_equal.
  induction l as [|peer l IH]; simpl; [done|].
  rewrite RemovePeers_body_absent by (apply Hl; by left).
  apply IH. intros a Ha. apply Hl. by right.
Qed.

(** *** Removal and the ring *)

(** C1.  What [RemovePeers] does with a listed address [a] that is a member
    with getter [g]: the call acknowledges, the connection of [g] is closed and
    [a] leaves the connection map, but the ring is the one the call started
    with, so an [a] that was in the ring is still in it.  (A listed address
    that is not a member changes nothing: [RemovePeers_not_member].) *)
Theorem RemovePeers_member (l : list string) (gp : pool) (w : world)
    (a : string) (g : grpcGetter) :
  a ∈ l → grpcGetters gp !! a = Some g → a ∈ ring_members (peers gp) →
  (RemovePeers l gp w).1 = Ok MkAck ∧
  (∀ c, conn g = Some c → c ∈ closed (RemovePeers l gp w).2.2) ∧
  grpcGetters (RemovePeers l gp w).2.1 !! a = None ∧
  peers (RemovePeers l gp w).2.1 = peers gp ∧
  a ∈ ring_members (peers (RemovePeers l gp w).2.1).
Proof.
  intros Hl Hg Hring. unfold RemovePeers; simpl.
  destruct (RemovePeers_peers l gp w) as (Hp & _ & _).
  repeat split.
  - intros c Hc. apply RemovePeers_closed. left. by exists a, g.
  - rewrite RemovePeers_lookup. by rewrite decide_True.
  - exact Hp.
  - by rewrite Hp.
Qed.

(** C2.  [RemovePeers] breaks the agreement between the ring and the
    connection map: from a pool in which the two agree, removing a list that
    names a member leaves a pool in which they do not. *)
Theorem RemovePeers_ring_diverges (l : list string) (gp : pool) (w : world) (a : string) :
  ring_matches_connections gp → a ∈ l → is_Some (grpcGetters gp !! a) →
  ¬ ring_matches_connections (RemovePeers l gp w).2.1.
Proof.
  intros Hinv Hl Hsome Hafter.
  assert (a ∈ ring_members (peers gp)) as Hring by (by apply Hinv).
  unfold RemovePeers in Hafter; simpl in Hafter.
  specialize (Hafter a).
  destruct (RemovePeers_peers l gp w) as (Hp & _ & _).
  rewrite Hp, RemovePeers_lookup, decide_True in Hafter by done.
  apply Hafter in Hring. by destruct Hring.
Qed.

End RemovalFacts.

(** *** Peer selection *)

Section Picking.

Context {Hash : Type}.
Variable ring_owner : ring Hash → string → string.

(** C6.  [PickPeer] by cases: an empty ring gives no peer; an owner equal to
    [self] gives no peer; any other owner gives what the connection map holds
    for the owner, with [true]. *)
Theorem PickPeer_cases (gp : GRPCPool Hash) (key : string) :
  (consistenthash.IsEmpty (peers gp) = true →
     PickPeer ring_owner gp key = (None, false)) ∧
  (consistenthash.IsEmpty (peers gp) = false →
   ring_owner (peers gp) key = self gp →
     PickPeer ring_owner gp key = (None, false)) ∧
  (consistenthash.IsEmpty (peers gp) = false →
   ring_owner (peers gp) key ≠ self gp →
     PickPeer ring_owner gp key = (grpcGetters gp !! ring_owner (peers gp) key, true) ∧
     ∀ g, grpcGetters gp !! ring_owner (peers gp) key = Some g →
          PickPeer ring_owner gp key = (Some g, true)).
Proof.
  unfold PickPeer. split; [|split].
  - by intros ->.
  - intros -> Hself. rewrite decide_False; [done | by intros H; apply H].
  - intros -> Hne. rewrite decide_True by done.
    split; [done | by intros g ->].
Qed.

(** C3.  When the owner of a key is not [self] and the connection map has no
    entry for it, [PickPeer] returns the nil getter together with [true]. *)
Theorem PickPeer_owner_without_connection (gp : GRPCPool Hash) (key : string) :
  consistenthash.IsEmpty (peers gp) = false →
  ring_owner (peers gp) key ≠ self gp →
  grpcGetters gp !! ring_owner (peers gp) key = None →
  PickPeer ring_owner gp key = (None, true).
Proof.
  intros Hne Hself Hnone. unfold PickPeer.
  rewrite Hne, decide_True by done. by rewrite Hnone.
Qed.

End Picking.

Section MembershipFacts.

Context {Hash : Type}.
Variable dial_error : string → option string.

Abbreviation pool := (GRPCPool Hash).

(** *** Runs of membership requests *)

Lemma serve_all_connections_in_ring (rs : list request) (st : pool * world) :
  connections_in_ring st.1 → connections_in_ring (serve_all dial_error rs st).1.
Proof.
  revert st. induction rs as [|r rs IH]; intros [gp w] H; simpl; [done|].
  apply IH. destruct r as [l|l|l]; simpl.
  - apply ring_matches_connections_in_ring, Set_ring_matches.
  - by apply AddPeers_connections_in_ring.
  - by apply RemovePeers_connections_in_ring.
Qed.

Lemma serve_all_keyed (rs : list request) (st : pool * world) :
  keyed_by_address (grpcGetters st.1) →
  keyed_by_address (grpcGetters (serve_all dial_error rs st).1).
Proof.
  revert st. induction rs as [|r rs IH]; intros [gp w] H; simpl; [done|].
  apply IH. destruct r as [l|l|l]; simpl.
  - by apply Set_keyed.
  - by apply AddPeers_keyed.
  - by apply RemovePeers_keyed.
Qed.

(** Under one transport, no run of membership requests makes an unreachable
    address a member of a pool that had none. *)
Lemma serve_all_members_reachable (rs : list request) (st : pool * world) :
  (∀ a, is_Some (grpcGetters st.1 !! a) → dial_error a = None) →
  ∀ a, is_Some (grpcGetters (serve_all dial_error rs st).1 !! a) → dial_error a = None.
Proof.
  revert st. induction rs as [|r rs IH]; intros [gp w] H; simpl; [done|].
  apply IH. intros a.
  destruct r as [l|l|l]; unfold serve, SetPeers, AddPeers, RemovePeers; cbn [fst snd].
  - rewrite Set_lookup_dom. intros [_ [?|?]]; auto.
  - destruct (dial_error a) as [cause|] eqn:Hd; [|done].
    intros Hs. exfalso.
    destruct (grpcGetters gp !! a) as [g|] eqn:Hg.
    + assert (Some cause = None) as [=]. rewrite <- Hd. apply H. by exists g.
    + rewrite (AddPeers_unreachable dial_error l gp w a cause Hd Hg) in Hs. by destruct Hs.
  - rewrite RemovePeers_lookup. case_decide; [by intros [? ?] | apply H].
Qed.

End MembershipFacts.

(** ** Construction *)

Section ConstructionFacts.

Context {Hash : Type}.
Variable defaultReplicas : Z.

(** What the constructor returns when it returns. *)
Lemma NewGRPCPoolOptions_fresh (self0 : string) (server : nat)
    (o : option (GRPCPoolOptions Hash)) (p : process) :
  grpcPoolCreated p = false →
  ∃ gp p1,
    NewGRPCPoolOptions defaultReplicas self0 server o p = (Returned gp, p1) ∧
    self gp = self0 ∧
    grpcGetters gp = ∅ ∧
    ring_members (peers gp) = [] ∧
    ring_replicas (peers gp) = Replicas (opts gp) ∧
    ring_hash (peers gp) = HashFn (opts gp) ∧
    is_Some (PeerDialOptions (opts gp)) ∧
    picker_registered p1 = true ∧
    server ∈ peer_servers p1.
Proof.
  intros Hp. unfold NewGRPCPoolOptions. rewrite Hp.
  eexists _, _. split; [reflexivity|]. simpl.
  repeat split; try done.
  - destruct (Replicas (default zero_options o) =? 0)%Z; simpl;
      destruct (PeerDialOptions (default zero_options o)) eqn:E; simpl; rewrite ?E; eauto.
  - apply elem_of_app. right. by apply list_elem_of_singleton.
Qed.

(** A freshly constructed pool satisfies the agreement between ring and
    connection map, and files nothing under a wrong address. *)
Lemma NewGRPCPoolOptions_ring_matches (self0 : string) (server : nat)
    (o : option (GRPCPoolOptions Hash)) (p p1 : process) (gp : GRPCPool Hash) :
  NewGRPCPoolOptions defaultReplicas self0 server o p = (Returned gp, p1) →
  ring_matches_connections gp ∧ keyed_by_address (grpcGetters gp).
Proof.
  unfold NewGRPCPoolOptions. destruct (grpcPoolCreated p); [done|].
  intros [= <- _]. split.
  - intros a; simpl. rewrite lookup_empty.
    split; [intros H; by apply elem_of_nil in H | intros [? [=]]].
  - intros a g; simpl. by rewrite lookup_empty.
Qed.

(** C9.  In a process where no pool has been created, constructing one,
    through [NewGRPCPoolOptions] or through [NewGRPCPool], returns a pool for
    the given [self] and sets [grpcPoolCreated]; constructing again in the
    process so left, with any arguments and through either constructor,
    panics with "NewGRPCPool must be called only once" and changes nothing. *)
Theorem NewGRPCPoolOptions_only_once (self1 self2 : string) (server1 server2 : nat)
    (opts1 opts2 : option (GRPCPoolOptions Hash)) (p : process) :
  grpcPoolCreated p = false →
  (∃ gp p1,
     NewGRPCPoolOptions defaultReplicas self1 server1 opts1 p = (Returned gp, p1) ∧
     self gp = self1 ∧
     grpcPoolCreated p1 = true ∧
     NewGRPCPoolOptions defaultReplicas self2 server2 opts2 p1 =
       (Panicked "NewGRPCPool must be called only once", p1) ∧
     NewGRPCPool (Hash := Hash) defaultReplicas self2 server2 p1 =
       (Panicked "NewGRPCPool must be called only once", p1)) ∧
  (∃ gp p1,
     NewGRPCPool (Hash := Hash) defaultReplicas self1 server1 p = (Returned gp, p1) ∧
     self gp = self1 ∧
     grpcPoolCreated p1 = true ∧
     NewGRPCPoolOptions defaultReplicas self2 server2 opts2 p1 =
       (Panicked "NewGRPCPool must be called only once", p1) ∧
     NewGRPCPool (Hash := Hash) defaultReplicas self2 server2 p1 =
       (Panicked "NewGRPCPool must be called only once", p1)).
Proof.
  intros Hp. unfold NewGRPCPool, NewGRPCPoolOptions. rewrite Hp.
  split; eexists _, _; (split; [reflexivity|]); simpl; auto.
Qed.

End ConstructionFacts.

(** *** Pools reached from the constructor *)

(** X21.  Whatever membership requests a constructed pool has served: its
    getters are filed under their own address, every key of the connection map
    is in the ring, and every member is reachable. *)
Lemma constructed_pool_invariants {Hash : Type} (dial_error : string → option string)
    (defaultReplicas : Z) (self0 : string) (server : nat)
    (o : option (GRPCPoolOptions Hash)) (p p1 : process) (gp : GRPCPool Hash)
    (w : world) (rs : list request) :
  NewGRPCPoolOptions defaultReplicas self0 server o p = (Returned gp, p1) →
  keyed_by_address (grpcGetters (serve_all dial_error rs (gp, w)).1) ∧
  connections_in_ring (serve_all dial_error rs (gp, w)).1 ∧
  ∀ a, is_Some (grpcGetters (serve_all dial_error rs (gp, w)).1 !! a) → dial_error a = None.
Proof.
  intros Hnew.
  destruct (NewGRPCPoolOptions_ring_matches defaultReplicas self0 server o p p1 gp Hnew)
    as [Hring Hkeyed].
  assert (grpcGetters gp = ∅) as Hempty.
  { revert Hnew. unfold NewGRPCPoolOptions.
    destruct (grpcPoolCreated p); [done | by intros [= <- _]]. }
  split; [|split].
  - by apply (serve_all_keyed dial_error rs (gp, w)).
  - apply (serve_all_connections_in_ring dial_error rs (gp, w)).
    by apply ring_matches_connections_in_ring.
  - apply (serve_all_members_reachable dial_error rs (gp, w)); simpl.
    intros a. rewrite Hempty, lookup_empty. by intros [? ?].
Qed.

(** ** The inbound handlers *)

Lemma AtomicInt_Add_1 (i : Z) :
  (- 2 ^ 63 ≤ i < 2 ^ 63 - 1)%Z → AtomicInt_Add i 1 = (i + 1)%Z.
Proof.
  intros Hi. unfold AtomicInt_Add, int64_wrap.
  rewrite Z.mod_small by lia. lia.
Qed.

Section ServiceFacts.

Context {L : Type}.
Variable Group_Get : L → string → fetched * L.
Variable Group_localRemove : L → string → L.

Abbreviation registry := (gmap string (Group L)).

(** C8.  [Retrieve] for a name under which no group is registered fails with
    the group-not-found error and leaves the registry, hence every counter, as
    it is.  For a registered group the handler adds one to the group's
    [ServerRequests] (once; on an int64 that is a plain increment below the
    maximum), leaves every other group alone, and answers with the fetched
    bytes, or with the fetch failure wrapped in the retrieve error. *)
Theorem Retrieve_counts_once (req : RetrieveRequest) (groups : registry) :
  (groups !! rr_Group req = None →
     Retrieve Group_Get req groups = (Err (ErrGroupNotFound (rr_Group req)), groups)) ∧
  (∀ g, groups !! rr_Group req = Some g →
     (Retrieve Group_Get req groups).2 !! rr_Group req =
       Some {| ServerRequests := AtomicInt_Add (ServerRequests g) 1;
               local := (Group_Get (local g) (rr_Key req)).2 |} ∧
     ((- 2 ^ 63 ≤ ServerRequests g < 2 ^ 63 - 1)%Z →
        ServerRequests <$> (Retrieve Group_Get req groups).2 !! rr_Group req =
          Some (ServerRequests g + 1)%Z) ∧
     (∀ name, name ≠ rr_Group req →
        (Retrieve Group_Get req groups).2 !! name = groups !! name) ∧
     (∀ value, (Group_Get (local g) (rr_Key req)).1 = Fetched value →
        (Retrieve Group_Get req groups).1 = Ok {| Value := value |}) ∧
     (∀ cause, (Group_Get (local g) (rr_Key req)).1 = FetchFailed cause →
        (Retrieve Group_Get req groups).1 =
          Err (ErrRetrieve (rr_Group req) (rr_Key req) cause))).
Proof.
  unfold Retrieve, GetGroup. split.
  - by intros ->.
  - intros g ->. simpl.
    destruct (Group_Get (local g) (rr_Key req)) as [[value|cause] l] eqn:E; simpl.
    + rewrite lookup_insert_eq. repeat split; try done.
      * intros Hi; simpl. by rewrite AtomicInt_Add_1.
      * intros name Hne. by rewrite lookup_insert_ne.
      * by intros v [= ->].
    + rewrite lookup_insert_eq. repeat split; try done.
      * intros Hi; simpl. by rewrite AtomicInt_Add_1.
      * intros name Hne. by rewrite lookup_insert_ne.
      * by intros c [= ->].
Qed.

(** C10.  [Delete] for a registered group acknowledges, adds one to the
    group's [ServerRequests] (once), applies the local removal to the local
    state of that group and leaves every other group alone; the counter is the
    one [Retrieve] advances: after either handler it has the same value. *)
Theorem Delete_counts_once (req : DeleteRequest) (groups : registry) (g : Group L) :
  groups !! dr_Group req = Some g →
  (Delete Group_localRemove req groups).1 = Ok MkAck ∧
  (Delete Group_localRemove req groups).2 !! dr_Group req =
    Some {| ServerRequests := AtomicInt_Add (ServerRequests g) 1;
            local := Group_localRemove (local g) (dr_Key req) |} ∧
  ((- 2 ^ 63 ≤ ServerRequests g < 2 ^ 63 - 1)%Z →
     ServerRequests <$> (Delete Group_localRemove req groups).2 !! dr_Group req =
       Some (ServerRequests g + 1)%Z) ∧
  (∀ name, name ≠ dr_Group req →
     (Delete Group_localRemove req groups).2 !! name = groups !! name) ∧
  ServerRequests <$> (Delete Group_localRemove req groups).2 !! dr_Group req =
    ServerRequests <$>
      (Retrieve Group_Get {| rr_Group := dr_Group req; rr_Key := dr_Key req |} groups).2
        !! dr_Group req.
Proof.
  intros Hg. unfold Delete, Retrieve, GetGroup; simpl. rewrite Hg; simpl.
  rewrite lookup_insert_eq. repeat split.
  - intros Hi; simpl. by rewrite AtomicInt_Add_1.
  - intros name Hne. by rewrite lookup_insert_ne.
  - destruct (Group_Get (local g) (dr_Key req)) as [[value|cause] l]; simpl;
      by rewrite lookup_insert_eq.
Qed.

(** [Delete] for an unknown group fails like [Retrieve] does. *)
Lemma Delete_unknown_group (req : DeleteRequest) (groups : registry) :
  groups !! dr_Group req = None →
  Delete Group_localRemove req groups = (Err (ErrGroupNotFound (dr_Group req)), groups).
Proof. unfold Delete, GetGroup. by intros ->. Qed.

End ServiceFacts.

(** ** Worked examples *)

(** [pool_A] is what the constructor returns in a fresh process. *)
Example pool_A_constructed :
  NewGRPCPool 50 "A" 0 process0 =
    (Returned pool_A,
     {| grpcPoolCreated := true; picker_registered := true; peer_servers := [0] |}).
Proof. reflexivity. Qed.

Example st_B_lookup :
  grpcGetters st_B.1 !! "B" = Some {| address := "B"; conn := Some 0 |} ∧
  ring_members (peers st_B.1) = ["B"].
Proof. split; vm_compute; reflexivity. Qed.

(** Replacing the members ["B"; "C"] by ["C"; "D"]: ["C"] keeps its
    connection, the connection of ["B"] is closed, ["D"] gets a new one. *)
Example SetPeers_BC_then_CD :
  let st := (SetPeers all_reachable ["C"; "D"] st_BC.1 st_BC.2).2 in
  grpcGetters st_BC.1 !! "C" = Some {| address := "C"; conn := Some 1 |} ∧
  grpcGetters st.1 !! "C" = Some {| address := "C"; conn := Some 1 |} ∧
  grpcGetters st.1 !! "B" = None ∧
  elements (closed st.2) = [0] ∧
  grpcGetters st.1 !! "D" = Some {| address := "D"; conn := Some 2 |} ∧
  ring_members (peers st.1) = ["C"; "D"].
Proof. repeat split; vm_compute; reflexivity. Qed.

Lemma st_B_ring_matches : ring_matches_connections st_B.1.
Proof.
  apply AddPeers_ring_matches. intros a; simpl. rewrite lookup_empty.
  split; [intros H; by apply elem_of_nil in H | intros [? [=]]].
Qed.

(** After ["B"] was added and removed again, the connection is closed and the
    map is empty, and the ring still holds ["B"]. *)
Lemma RemovePeers_member_witness :
  (RemovePeers ["B"] st_B.1 st_B.2).1 = Ok MkAck ∧
  (∀ c, Some 0 = Some c → c ∈ closed (RemovePeers ["B"] st_B.1 st_B.2).2.2) ∧
  grpcGetters (RemovePeers ["B"] st_B.1 st_B.2).2.1 !! "B" = None ∧
  peers (RemovePeers ["B"] st_B.1 st_B.2).2.1 = peers st_B.1 ∧
  "B" ∈ ring_members (peers (RemovePeers ["B"] st_B.1 st_B.2).2.1).
Proof.
  apply (RemovePeers_member ["B"] st_B.1 st_B.2 "B" {| address := "B"; conn := Some 0 |}).
  - compute_done.
  - vm_compute; reflexivity.
  - compute_done.
Defined.

Lemma RemovePeers_ring_diverges_witness :
  ¬ ring_matches_connections (RemovePeers ["B"] st_B.1 st_B.2).2.1.
Proof.
  apply (RemovePeers_ring_diverges ["B"] st_B.1 st_B.2 "B").
  - exact st_B_ring_matches.
  - compute_done.
  - compute_done.
Defined.

(** The pool after ["B"] was added and removed again. *)
Example st_B_removed_state :
  st_B_removed.1 =
    {| self := "A";
       opts := {| Replicas := 50; HashFn := None; PeerDialOptions := Some [WithInsecure] |};
       peers := {| ring_replicas := 50; ring_hash := None; ring_members := ["B"] |};
       grpcGetters := ∅ |} ∧
  elements (closed st_B_removed.2) = [0].
Proof. split; vm_compute; reflexivity. Qed.

(** That pool answers every key with the nil getter and [true], whatever the
    ring's owner computation is, as long as it picks a member of the ring. *)
Lemma PickPeer_after_removal (ring_owner : ring unit → string → string) (key : string) :
  (∀ r k, consistenthash.IsEmpty r = false → ring_owner r k ∈ ring_members r) →
  PickPeer ring_owner st_B_removed.1 key = (None, true).
Proof.
  intros Hmember. destruct st_B_removed_state as [-> _].
  unfold PickPeer; simpl.
  set (r := {| ring_replicas := 50%Z; ring_hash := None; ring_members := ["B"] |}).
  assert (ring_owner r key = "B") as ->.
  { specialize (Hmember r key eq_refl). simpl in Hmember.
    by apply list_elem_of_singleton in Hmember. }
  rewrite decide_True by done. by rewrite lookup_empty.
Qed.

(** With ["B"] removed from the map but not from the ring, a key the ring
    gives to ["B"] is answered with the nil getter and [true]. *)
Lemma PickPeer_owner_without_connection_witness :
  PickPeer first_member st_B_removed.1 "k" = (None, true).
Proof.
  apply (PickPeer_owner_without_connection first_member st_B_removed.1 "k").
  - vm_compute; reflexivity.
  - vm_compute; discriminate.
  - vm_compute; reflexivity.
Defined.

Lemma PickPeer_cases_witness :
  PickPeer first_member pool_A "k" = (None, false) ∧
  PickPeer first_member st_BC.1 "k" = (Some {| address := "B"; conn := Some 0 |}, true).
Proof.
  split.
  - destruct (PickPeer_cases first_member pool_A "k") as (H & _ & _).
    apply H. vm_compute; reflexivity.
  - destruct (PickPeer_cases first_member st_BC.1 "k") as (_ & _ & H).
    apply H.
    + vm_compute; reflexivity.
    + vm_compute; discriminate.
    + vm_compute; reflexivity.
Defined.

(** The list ["B"; "B"], every address reachable: the second [SetPeers] dials
    ["B"] again and files the new getter in place of the one the first call
    left. *)
Lemma SetPeers_duplicate_redials :
  ¬ SetPeers_twice_creates_nothing all_reachable ["B"; "B"] pool_A world0 ∧
  ¬ SetPeers_keeps_common all_reachable ["B"] ["B"; "B"] pool_A world0.
Proof.
  split.
  - intros (H & _). vm_compute in H. discriminate.
  - intros H. specialize (H "B"). 
    assert ("B" ∈ ["B"]) as H1 by compute_done.
    assert ("B" ∈ ["B"; "B"]) as H2 by compute_done.
    specialize (H H1 H2). vm_compute in H. discriminate.
Qed.

Lemma SetPeers_reuses_connections_witness :
  (SetPeers all_reachable ["B"; "C"] st_BC.1 st_BC.2).2 = st_BC ∧
  SetPeers_keeps_common all_reachable ["B"; "C"] ["C"; "D"] pool_A world0.
Proof.
  split.
  - apply (SetPeers_reuses_connections all_reachable ["B"; "C"] ["C"; "D"] pool_A world0).
    + compute_done.
    + intros a _. reflexivity.
  - apply (SetPeers_reuses_connections all_reachable ["B"; "C"] ["C"; "D"] pool_A world0).
    compute_done.
Defined.

Lemma SetPeers_all_reachable_witness :
  GetURL <$> GetAll (SetPeers all_reachable ["C"; "D"] st_BC.1 st_BC.2).2.1
    ≡ₚ remove_dups ["C"; "D"] ∧
  (consistenthash.IsEmpty (peers (SetPeers all_reachable ["C"; "D"] st_BC.1 st_BC.2).2.1)
     = false ↔ ["C"; "D"] ≠ []) ∧
  0 ∈ closed (SetPeers all_reachable ["C"; "D"] st_BC.1 st_BC.2).2.2 ∧
  (∀ g, g ∈ GetAll (SetPeers all_reachable ["C"; "D"] st_BC.1 st_BC.2).2.1 ↔
        ∃ a, a ∈ ["C"; "D"] ∧
             grpcGetters (SetPeers all_reachable ["C"; "D"] st_BC.1 st_BC.2).2.1 !! a
               = Some g) ∧
  ∃ g, grpcGetters (SetPeers all_reachable ["C"; "D"] st_BC.1 st_BC.2).2.1 !! "D" = Some g ∧
       g ∈ GetAll (SetPeers all_reachable ["C"; "D"] st_BC.1 st_BC.2).2.1 ∧
       GetURL g = "D" ∧
       (grpcGetters st_BC.1 !! "D" = Some g ∨
        ∃ c, conn g = Some c ∧
             (next_conn st_BC.2 ≤ c <
              next_conn (SetPeers all_reachable ["C"; "D"] st_BC.1 st_BC.2).2.2)%nat).
Proof.
  destruct (SetPeers_all_reachable all_reachable ["C"; "D"] st_BC.1 st_BC.2)
    as (H1 & H2 & H3 & H4 & H5).
  - intros a _. reflexivity.
  - unfold st_BC, SetPeers; cbn [fst snd]. apply Set_keyed.
    intros a g. unfold pool_A; cbn [grpcGetters]. by rewrite lookup_empty.
  - split; [exact H1 | split; [exact H2 | split; [| split; [exact H4 |]]]].
    + apply (H3 "B" {| address := "B"; conn := Some 0 |}).
      * vm_compute; reflexivity.
      * compute_done.
      * reflexivity.
    + apply (H5 "D"). compute_done.
Defined.

Lemma connect_failures_not_reported_witness :
  grpcGetters (SetPeers refuses_C ["B"; "C"] pool_A world0).2.1 !! "C" = None ∧
  Warn_open_failed "C" (ErrConnect "C" "connection refused")
    ∈ logged (SetPeers refuses_C ["B"; "C"] pool_A world0).2.2 ∧
  grpcGetters (AddPeers refuses_C ["B"; "C"] pool_A world0).2.1 !! "C" = None ∧
  Warn_open_failed "C" (ErrConnect "C" "connection refused")
    ∈ logged (AddPeers refuses_C ["B"; "C"] pool_A world0).2.2.
Proof.
  apply (connect_failures_not_reported refuses_C ["B"; "C"] pool_A world0).
  - compute_done.
  - vm_compute; reflexivity.
  - vm_compute; reflexivity.
Defined.

Lemma NewGRPCPoolOptions_only_once_witness :
  (∃ gp p1,
     NewGRPCPoolOptions (Hash := unit) 50 "A" 0 None process0 = (Returned gp, p1) ∧
     self gp = "A" ∧
     grpcPoolCreated p1 = true ∧
     NewGRPCPoolOptions (Hash := unit) 50 "B" 1 (Some zero_options) p1 =
       (Panicked "NewGRPCPool must be called only once", p1) ∧
     NewGRPCPool (Hash := unit) 50 "B" 1 p1 =
       (Panicked "NewGRPCPool must be called only once", p1)) ∧
  (∃ gp p1,
     NewGRPCPool (Hash := unit) 50 "A" 0 process0 = (Returned gp, p1) ∧
     self gp = "A" ∧
     grpcPoolCreated p1 = true ∧
     NewGRPCPoolOptions (Hash := unit) 50 "B" 1 (Some zero_options) p1 =
       (Panicked "NewGRPCPool must be called only once", p1) ∧
     NewGRPCPool (Hash := unit) 50 "B" 1 p1 =
       (Panicked "NewGRPCPool must be called only once", p1)).
Proof.
  apply (NewGRPCPoolOptions_only_once 50 "A" "B" 0 1 None (Some zero_options) process0).
  reflexivity.
Defined.

Lemma Retrieve_counts_once_witness :
  Retrieve sample_Get {| rr_Group := "h"; rr_Key := "k" |} sample_groups =
    (Err (ErrGroupNotFound "h"), sample_groups) ∧
  ServerRequests <$>
    (Retrieve sample_Get {| rr_Group := "g"; rr_Key := "k" |} sample_groups).2 !! "g" =
    Some 6%Z ∧
  (Retrieve sample_Get {| rr_Group := "g"; rr_Key := "k" |} sample_groups).1 =
    Ok {| Value := [Byte.x01] |} ∧
  (Retrieve sample_Get {| rr_Group := "g"; rr_Key := "z" |} sample_groups).1 =
    Err (ErrRetrieve "g" "z" "no value").
Proof.
  destruct (Retrieve_counts_once sample_Get {| rr_Group := "h"; rr_Key := "k" |} sample_groups)
    as (Hunknown & _).
  destruct (Retrieve_counts_once sample_Get {| rr_Group := "g"; rr_Key := "k" |} sample_groups)
    as (_ & Hk).
  destruct (Hk {| ServerRequests := 5; local := {[ "k" := [Byte.x01] ]} |})
    as (_ & Hcount & _ & Hvalue & _); [vm_compute; reflexivity|].
  destruct (Retrieve_counts_once sample_Get {| rr_Group := "g"; rr_Key := "z" |} sample_groups)
    as (_ & Hz).
  destruct (Hz {| ServerRequests := 5; local := {[ "k" := [Byte.x01] ]} |})
    as (_ & _ & _ & _ & Hcause); [vm_compute; reflexivity|].
  split; [|split; [|split]].
  - apply Hunknown. vm_compute; reflexivity.
  - apply Hcount. simpl; lia.
  - apply Hvalue. vm_compute; reflexivity.
  - apply Hcause. vm_compute; reflexivity.
Defined.

Lemma Delete_counts_once_witness :
  (Delete sample_localRemove {| dr_Group := "g"; dr_Key := "k" |} sample_groups).1 = Ok MkAck ∧
  (Delete sample_localRemove {| dr_Group := "g"; dr_Key := "k" |} sample_groups).2 !! "g" =
    Some {| ServerRequests := AtomicInt_Add 5 1;
            local := sample_localRemove {[ "k" := [Byte.x01] ]} "k" |}.
Proof.
  destruct (Delete_counts_once sample_Get sample_localRemove
              {| dr_Group := "g"; dr_Key := "k" |} sample_groups
              {| ServerRequests := 5; local := {[ "k" := [Byte.x01] ]} |})
    as (H1 & H2 & _).
  - vm_compute; reflexivity.
  - split; [exact H1 | exact H2].
Defined.

(** * Further properties of the pool *)

Lemma filter_ext_elem {A : Type} (P1 P2 : A → Prop)
    `{!∀ x, Decision (P1 x)} `{!∀ x, Decision (P2 x)} (l : list A) :
  (∀ x, x ∈ l → (P1 x ↔ P2 x)) → filter P1 l = filter P2 l.
Proof.
  induction l as [|x l IH]; intros Hext; [done|].
  rewrite !filter_cons.
  rewrite IH by (intros y Hy; apply Hext; by right).
  destruct (decide (P1 x)) as [H1|H1], (decide (P2 x)) as [H2|H2]; try done.
  - destruct H2. apply Hext; [by left | done].
  - destruct H1. apply Hext; [by left | done].
Qed.

Section SetFacts.

Context {Hash : Type}.
Variable dial_error : string → option string.

Abbreviation pool := (GRPCPool Hash).
Abbreviation locals := (set_locals Hash).

Ltac body_cases d peer s :=
  let g := fresh "g" in
  let cause := fresh "cause" in
  let Hold := fresh "Hold" in
  let Hdial := fresh "Hdial" in
  destruct (sl_old s !! peer) as [g|] eqn:Hold;
  [ rewrite (Set_body_reuse dial_error d peer s g Hold)
  | destruct (dial_error peer) as [cause|] eqn:Hdial;
    [ rewrite (Set_body_dial_failed dial_error d peer cause s Hold Hdial)
    | rewrite (Set_body_dial_ok dial_error d peer s Hold Hdial) ] ].

(** The dials of the first loop of [Set], for a list without duplicates: one
    per listed address the old map does not hold, in the order of the list;
    each of them that succeeds takes the next connection number. *)
Lemma Set_loop_dials (d : list DialOption) (P : list string) (s : locals) :
  NoDup P →
  dialed (sl_world (Set_loop dial_error d P s)) =
    dialed (sl_world s) ++ filter (λ a, sl_old s !! a = None) P ∧
  next_conn (sl_world (Set_loop dial_error d P s)) =
    next_conn (sl_world s) +
    length (filter (λ a, sl_old s !! a = None ∧ dial_error a = None) P).
Proof.
  revert s. induction P as [|peer P IH]; intros s Hnd; simpl.
  - rewrite app_nil_r. split; [done | lia].
  - apply NoDup_cons in Hnd as [Hpeer Hnd].
    destruct (IH (Set_body dial_error d peer s) Hnd) as [-> ->].
    rewrite !filter_cons.
    body_cases d peer s; cbn [sl_world sl_old dialed next_conn].
    + rewrite decide_False by done.
      rewrite decide_False by (by intros [? _]).
      split.
      * f_equal. apply filter_ext_elem. intros a Ha.
        rewrite lookup_delete_ne; [done | by intros ->].
      * f_equal. f_equal. apply filter_ext_elem. intros a Ha.
        rewrite lookup_delete_ne; [done | by intros ->].
    + rewrite decide_True by done.
      rewrite decide_False by (by intros [_ ?]).
      split; [by rewrite <- app_assoc | done].
    + rewrite decide_True by done. rewrite decide_True by done.
      split; [by rewrite <- app_assoc | simpl; lia].
Qed.

(** X1.  [Set] makes ring and connection map agree whatever pool it starts
    from, also one in which they disagree; the new ring is built with the
    configured replica count and hash function, and [self] and the options are
    left alone. *)
Theorem Set_restores_agreement (P : list string) (gp : pool) (w : world) :
  ring_matches_connections (GRPCPool_Set dial_error P gp w).1 ∧
  ring_replicas (peers (GRPCPool_Set dial_error P gp w).1) = Replicas (opts gp) ∧
  ring_hash (peers (GRPCPool_Set dial_error P gp w).1) = HashFn (opts gp) ∧
  self (GRPCPool_Set dial_error P gp w).1 = self gp ∧
  opts (GRPCPool_Set dial_error P gp w).1 = opts gp.
Proof.
  split; [apply Set_ring_matches|].
  unfold GRPCPool_Set; cbn [fst peers self opts].
  destruct (Set_loop_ring_config dial_error (dial_options (opts gp)) P
    {| sl_world := w;
       sl_peers := consistenthash.New (Replicas (opts gp)) (HashFn (opts gp));
       sl_old := grpcGetters gp; sl_temp := ∅ |}) as [-> ->].
  done.
Qed.

(** X2.  The members after [Set]: an address is a member, and in the ring,
    exactly when it is listed and was a member already or can be dialed. *)
Theorem Set_membership (P : list string) (gp : pool) (w : world) (a : string) :
  (is_Some (grpcGetters (GRPCPool_Set dial_error P gp w).1 !! a) ↔
     a ∈ P ∧ (is_Some (grpcGetters gp !! a) ∨ dial_error a = None)) ∧
  (a ∈ ring_members (peers (GRPCPool_Set dial_error P gp w).1) ↔
     a ∈ P ∧ (is_Some (grpcGetters gp !! a) ∨ dial_error a = None)).
Proof.
  split; [apply Set_lookup_dom|].
  rewrite <- Set_lookup_dom. apply Set_ring_matches.
Qed.

(** X3.  The connections [Set] closes are exactly those of the getters the
    pool held for addresses that are not listed: a connection is closed after
    the call when it was closed before or belonged to such a getter, and
    otherwise not. *)
Theorem Set_closes_exactly (P : list string) (gp : pool) (w : world) (c : nat) :
  c ∈ closed (GRPCPool_Set dial_error P gp w).2 ↔
  c ∈ closed w ∨
  ∃ a g, (a ∉ P) ∧ grpcGetters gp !! a = Some g ∧ conn g = Some c.
Proof.
  rewrite Set_closed. split; intros [?|?]; auto.
Qed.

(** X4.  [Set] with no address: the pool is left without members and with an
    empty ring, nothing is dialed or logged, every connection the pool held is
    closed, and [PickPeer] finds no peer for any key. *)
Theorem Set_no_peers (gp : pool) (w : world) :
  grpcGetters (GRPCPool_Set dial_error [] gp w).1 = ∅ ∧
  GetAll (GRPCPool_Set dial_error [] gp w).1 = [] ∧
  consistenthash.IsEmpty (peers (GRPCPool_Set dial_error [] gp w).1) = true ∧
  dialed (GRPCPool_Set dial_error [] gp w).2 = dialed w ∧
  logged (GRPCPool_Set dial_error [] gp w).2 = logged w ∧
  (∀ a g c, grpcGetters gp !! a = Some g → conn g = Some c →
            c ∈ closed (GRPCPool_Set dial_error [] gp w).2) ∧
  (∀ ring_owner key,
     PickPeer ring_owner (GRPCPool_Set dial_error [] gp w).1 key = (None, false)).
Proof.
  unfold GRPCPool_Set; simpl.
  destruct (close_all_other_fields (grpcGetters gp) w) as (_ & -> & ->).
  repeat split; try done.
  intros a g c Hg Hc. apply close_all_closed. left. by exists a, g.
Qed.

(** X5.  [Set] with a list without duplicates dials exactly the listed
    addresses that are not members, once each and in the order of the list,
    and creates one connection for each of them that is reachable. *)
Theorem Set_dials_new_addresses (P : list string) (gp : pool) (w : world) :
  NoDup P →
  dialed (GRPCPool_Set dial_error P gp w).2 =
    dialed w ++ filter (λ a, grpcGetters gp !! a = None) P ∧
  next_conn (GRPCPool_Set dial_error P gp w).2 =
    next_conn w +
    length (filter (λ a, grpcGetters gp !! a = None ∧ dial_error a = None) P).
Proof.
  intros Hnd. unfold GRPCPool_Set; cbn [fst snd].
  set (s0 := {| sl_world := w;
                sl_peers := consistenthash.New (Replicas (opts gp)) (HashFn (opts gp));
                sl_old := grpcGetters gp; sl_temp := ∅ |}).
  destruct (close_all_other_fields
    (sl_old (Set_loop dial_error (dial_options (opts gp)) P s0))
    (sl_world (Set_loop dial_error (dial_options (opts gp)) P s0))) as (-> & -> & _).
  exact (Set_loop_dials (dial_options (opts gp)) P s0 Hnd).
Qed.

End SetFacts.

Section AddPeersFacts.

Context {Hash : Type}.
Variable dial_error : string → option string.

Abbreviation pool := (GRPCPool Hash).

Ltac add_cases peer gp w :=
  let g := fresh "g" in
  let cause := fresh "cause" in
  let Hold := fresh "Hold" in
  let Hdial := fresh "Hdial" in
  destruct (grpcGetters gp !! peer) as [g|] eqn:Hold;
  [ rewrite (AddPeers_body_present dial_error peer gp w g Hold)
  | destruct (dial_error peer) as [cause|] eqn:Hdial;
    [ rewrite (AddPeers_body_dial_failed dial_error peer cause gp w Hold Hdial)
    | rewrite (AddPeers_body_dial_ok dial_error peer gp w Hold Hdial) ] ].

Lemma AddPeers_lookup_dom (l : list string) (gp : pool) (w : world) (a : string) :
  is_Some (grpcGetters (AddPeers_loop dial_error l (gp, w)).1 !! a) ↔
  is_Some (grpcGetters gp !! a) ∨ (a ∈ l ∧ dial_error a = None).
Proof.
  revert gp w. induction l as [|peer l IH]; intros gp w; simpl.
  - split; [auto | intros [?|[H _]]; [done | by apply elem_of_nil in H]].
  - add_cases peer gp w; rewrite IH, elem_of_cons; cbn [grpcGetters].
    + assert (is_Some (grpcGetters gp !! peer)) by (by exists g). naive_solver.
    + naive_solver.
    + rewrite lookup_insert_is_Some.
      destruct (decide (peer = a)) as [->|Hne]; naive_solver.
Qed.

Lemma AddPeers_lookup_notin (l : list string) (gp : pool) (w : world) (a : string) :
  a ∉ l →
  grpcGetters (AddPeers_loop dial_error l (gp, w)).1 !! a = grpcGetters gp !! a.
Proof.
  revert gp w. induction l as [|peer l IH]; intros gp w Ha; simpl; [done|].
  apply not_elem_of_cons in Ha as [Hne Ha].
  add_cases peer gp w; rewrite IH by done; cbn [grpcGetters]; [done | done |].
  by rewrite lookup_insert_ne.
Qed.

Lemma AddPeers_next_conn_mono (l : list string) (gp : pool) (w : world) :
  (next_conn w ≤ next_conn (AddPeers_loop dial_error l (gp, w)).2)%nat.
Proof.
  revert gp w. induction l as [|peer l IH]; intros gp w; simpl; [done|].
  add_cases peer gp w;
    (etrans; [|apply IH]); simpl; lia.
Qed.

(** [AddPeers] changes nothing in a pool that holds every listed address; it
    does not change the pool when every listed address is held or cannot be
    dialed. *)
Lemma AddPeers_all_held (l : list string) (gp : pool) (w : world) :
  (∀ a, a ∈ l → is_Some (grpcGetters gp !! a)) →
  AddPeers_loop dial_error l (gp, w) = (gp, w).
Proof.
  induction l as [|peer l IH]; intros Hl; simpl; [done|].
  destruct (Hl peer) as [g Hg]; [by left|].
  rewrite (AddPeers_body_present dial_error peer gp w g Hg).
  apply IH. intros a Ha. apply Hl. by right.
Qed.

Lemma AddPeers_nothing_to_add (l : list string) (gp : pool) (w : world) :
  (∀ a, a ∈ l → is_Some (grpcGetters gp !! a) ∨ is_Some (dial_error a)) →
  (AddPeers_loop dial_error l (gp, w)).1 = gp.
Proof.
  revert w. induction l as [|peer l IH]; intros w Hl; simpl; [done|].
  assert (∀ a, a ∈ l → is_Some (grpcGetters gp !! a) ∨ is_Some (dial_error a)) as Hl'
    by (intros a Ha; apply Hl; by right).
  add_cases peer gp w; [by apply IH | by apply IH |].
  destruct (Hl peer) as [[? ?]|[? ?]]; [by left | congruence | congruence].
Qed.

(** The dials of [AddPeers] for a list without duplicates. *)
Lemma AddPeers_loop_dials (l : list string) (gp : pool) (w : world) :
  NoDup l →
  dialed (AddPeers_loop dial_error l (gp, w)).2 =
    dialed w ++ filter (λ a, grpcGetters gp !! a = None) l ∧
  next_conn (AddPeers_loop dial_error l (gp, w)).2 =
    next_conn w +
    length (filter (λ a, grpcGetters gp !! a = None ∧ dial_error a = None) l).
Proof.
  revert gp w. induction l as [|peer l IH]; intros gp w Hnd; simpl.
  - rewrite app_nil_r. split; [done | lia].
  - apply NoDup_cons in Hnd as [Hpeer Hnd].
    rewrite !filter_cons.
    add_cases peer gp w;
      match goal with
      | |- context [AddPeers_loop dial_error l (?gp', ?w')] =>
          destruct (IH gp' w' Hnd) as [-> ->]
      end; cbn [grpcGetters dialed next_conn].
    + rewrite decide_False by done.
      rewrite decide_False by (by intros [? _]). done.
    + rewrite decide_True by done.
      rewrite decide_False by (by intros [_ ?]).
      split; [by rewrite <- app_assoc | done].
    + rewrite decide_True by done. rewrite decide_True by done.
      split.
      * rewrite <- app_assoc. f_equal. simpl. f_equal.
        apply filter_ext_elem. intros a Ha.
        rewrite lookup_insert_ne; [done | by intros ->].
      * simpl. rewrite Nat.add_succ_r. f_equal. f_equal. f_equal.
        apply filter_ext_elem. intros a Ha.
        rewrite lookup_insert_ne; [done | by intros ->].
Qed.

(** A member that [AddPeers] added is bound to its address and has a
    connection created during the call. *)
Lemma AddPeers_new_getter (l : list string) (gp : pool) (w : world)
    (a : string) (g : grpcGetter) :
  grpcGetters gp !! a = None →
  grpcGetters (AddPeers_loop dial_error l (gp, w)).1 !! a = Some g →
  address g = a ∧
  ∃ c, conn g = Some c ∧
       (next_conn w ≤ c < next_conn (AddPeers_loop dial_error l (gp, w)).2)%nat.
Proof.
  revert gp w. induction l as [|peer l IH]; intros gp w Hnone; simpl.
  - by rewrite Hnone.
  - add_cases peer gp w.
    + by apply IH.
    + intros Hg. destruct (IH gp _ Hnone Hg) as (Ha & c & Hc & Hlt).
      split; [done|]. exists c. split; [done|]. simpl in Hlt. lia.
    + destruct (decide (a = peer)) as [->|Hne].
      * rewrite (AddPeers_keeps dial_error l _ _ peer
                   {| address := peer; conn := Some (next_conn w) |})
          by (cbn [grpcGetters]; apply lookup_insert_eq).
        intros [= <-]. split; [done|]. exists (next_conn w). split; [done|].
        split; [done|].
        match goal with
        | |- (_ < next_conn (AddPeers_loop dial_error l (?gp', ?w')).2)%nat =>
            pose proof (AddPeers_next_conn_mono l gp' w') as Hm
        end.
        simpl in Hm. lia.
      * intros Hg.
        match type of Hg with
        | grpcGetters (AddPeers_loop dial_error l (?gp', ?w')).1 !! _ = _ =>
            destruct (IH gp' w') as (Ha & c & Hc & Hlt);
              [cbn [grpcGetters]; by rewrite lookup_insert_ne | exact Hg |]
        end.
        split; [done|]. exists c. split; [done|]. simpl in Hlt. lia.
Qed.

(** Every connection created during [AddPeers] is filed under a listed
    address afterwards. *)
Lemma AddPeers_created_held (l : list string) (gp : pool) (w : world) (c : nat) :
  (next_conn w ≤ c < next_conn (AddPeers_loop dial_error l (gp, w)).2)%nat →
  ∃ a, a ∈ l ∧ holds_conn (grpcGetters (AddPeers_loop dial_error l (gp, w)).1) c a.
Proof.
  revert gp w. induction l as [|peer l IH]; intros gp w; simpl; [lia|].
  add_cases peer gp w.
  - intros Hc. destruct (IH gp w Hc) as (a & Ha & Hh). exists a. split; [by right | done].
  - intros Hc.
    match type of Hc with
    | (_ ≤ _ < next_conn (AddPeers_loop dial_error l (?gp', ?w')).2)%nat =>
        destruct (IH gp' w' Hc) as (a & Ha & Hh)
    end.
    exists a. split; [by right | done].
  - intros Hc. destruct (decide (c = next_conn w)) as [->|Hne].
    + exists peer. split; [by left|].
      exists {| address := peer; conn := Some (next_conn w) |}. split; [|done].
      apply AddPeers_keeps. cbn [grpcGetters]. apply lookup_insert_eq.
    + match type of Hc with
      | (_ ≤ _ < next_conn (AddPeers_loop dial_error l (?gp', ?w')).2)%nat =>
          destruct (IH gp' w') as (a & Ha & Hh); [simpl; lia|]
      end.
      exists a. split; [by right | done].
Qed.

(** X6.  The members after [AddPeers]: an address is a member exactly when
    it was one before or is listed and can be dialed; addresses that are not
    listed keep what the map held for them. *)
Theorem AddPeers_membership (l : list string) (gp : pool) (w : world) (a : string) :
  (is_Some (grpcGetters (AddPeers dial_error l gp w).2.1 !! a) ↔
     is_Some (grpcGetters gp !! a) ∨ (a ∈ l ∧ dial_error a = None)) ∧
  (a ∉ l →
     grpcGetters (AddPeers dial_error l gp w).2.1 !! a = grpcGetters gp !! a).
Proof.
  unfold AddPeers; cbn [fst snd].
  split; [apply AddPeers_lookup_dom | apply AddPeers_lookup_notin].
Qed.

(** X7.  [AddPeers] leaves the peers it finds untouched: it closes no
    connection and every member keeps the getter it had; a member it adds is
    bound to its address and has a connection created during the call. *)
Theorem AddPeers_existing_untouched (l : list string) (gp : pool) (w : world) :
  closed (AddPeers dial_error l gp w).2.2 = closed w ∧
  (∀ a g, grpcGetters gp !! a = Some g →
          grpcGetters (AddPeers dial_error l gp w).2.1 !! a = Some g) ∧
  (∀ a g, grpcGetters gp !! a = None →
          grpcGetters (AddPeers dial_error l gp w).2.1 !! a = Some g →
          GetURL g = a ∧
          ∃ c, conn g = Some c ∧
               (next_conn w ≤ c < next_conn (AddPeers dial_error l gp w).2.2)%nat).
Proof.
  unfold AddPeers, GetURL; cbn [fst snd].
  split; [apply AddPeers_closed|].
  split; [intros a g; apply AddPeers_keeps | intros a g; apply AddPeers_new_getter].
Qed.

(** X8.  [AddPeers] keeps ring and connection map in agreement: every address
    it files in the map it also adds to the ring, and no other. *)
Theorem AddPeers_preserves_agreement (l : list string) (gp : pool) (w : world) :
  ring_matches_connections gp →
  ring_matches_connections (AddPeers dial_error l gp w).2.1 ∧
  ∀ a, a ∈ ring_members (peers (AddPeers dial_error l gp w).2.1) ↔
       a ∈ ring_members (peers gp) ∨ (a ∈ l ∧ dial_error a = None).
Proof.
  intros Hinv. unfold AddPeers; cbn [fst snd].
  pose proof (AddPeers_ring_matches dial_error l gp w Hinv) as Hafter.
  split; [done|]. intros a.
  rewrite (Hafter a), AddPeers_lookup_dom. by rewrite (Hinv a).
Qed.

(** X9.  [AddPeers] called again with the same list leaves the pool as the
    first call left it; when every listed address is reachable it leaves the
    environment alone as well: nothing is dialed or logged. *)
Theorem AddPeers_twice (l : list string) (gp : pool) (w : world) :
  (AddPeers dial_error l (AddPeers dial_error l gp w).2.1
                         (AddPeers dial_error l gp w).2.2).2.1 =
    (AddPeers dial_error l gp w).2.1 ∧
  ((∀ a, a ∈ l → dial_error a = None) →
   AddPeers dial_error l (AddPeers dial_error l gp w).2.1
                         (AddPeers dial_error l gp w).2.2 =
     (Ok MkAck, (AddPeers dial_error l gp w).2)).
Proof.
  unfold AddPeers; cbn [fst snd].
  destruct (AddPeers_loop dial_error l (gp, w)) as [gp1 w1] eqn:E.
  assert (∀ a, is_Some (grpcGetters gp1 !! a) ↔
               is_Some (grpcGetters gp !! a) ∨ (a ∈ l ∧ dial_error a = None)) as Hdom.
  { intros a. change gp1 with (gp1, w1).1. rewrite <- E. apply AddPeers_lookup_dom. }
  cbn [fst snd]. split.
  - apply AddPeers_nothing_to_add. intros a Ha.
    destruct (dial_error a) as [cause|] eqn:Hd; [right; by exists cause|].
    left. apply Hdom. by right.
  - intros Hl. f_equal. apply AddPeers_all_held. intros a Ha.
    apply Hdom. right. split; [done | by apply Hl].
Qed.

(** X10.  [AddPeers] with a list without duplicates dials exactly the listed
    addresses that are not members, once each and in the order of the list,
    and creates one connection for each of them that is reachable. *)
Theorem AddPeers_dials_new_addresses (l : list string) (gp : pool) (w : world) :
  NoDup l →
  dialed (AddPeers dial_error l gp w).2.2 =
    dialed w ++ filter (λ a, grpcGetters gp !! a = None) l ∧
  next_conn (AddPeers dial_error l gp w).2.2 =
    next_conn w +
    length (filter (λ a, grpcGetters gp !! a = None ∧ dial_error a = None) l).
Proof.
  intros Hnd. unfold AddPeers; cbn [fst snd]. by apply AddPeers_loop_dials.
Qed.

End AddPeersFacts.

Section RemovePeersFacts.

Context {Hash : Type}.

Abbreviation pool := (GRPCPool Hash).

Lemma RemovePeers_dials_nothing (l : list string) (gp : pool) (w : world) :
  dialed (RemovePeers_loop l (gp, w)).2 = dialed w ∧
  next_conn (RemovePeers_loop l (gp, w)).2 = next_conn w.
Proof.
  apply (RemovePeers_loop_ind
    (λ st, dialed st.2 = dialed w ∧ next_conn st.2 = next_conn w) l (gp, w)); [|done].
  intros peer [gp' w'] [Hd Hn]; cbn [snd] in Hd, Hn.
  destruct (grpcGetters gp' !! peer) as [p|] eqn:Hold.
  - rewrite (RemovePeers_body_present peer gp' w' p Hold); cbn [snd].
    destruct (close_other_fields p (write_log (Info_removing peer) w')) as (-> & -> & _).
    done.
  - by rewrite (RemovePeers_body_absent peer gp' w' Hold).
Qed.

(** X11.  What [RemovePeers] does, in full: listed addresses are not members
    afterwards and every other address keeps what the map held for it; the
    connections closed are those closed before and those of the listed
    members; the ring, [self] and the options are as before, and nothing is
    dialed. *)
Theorem RemovePeers_effect (l : list string) (gp : pool) (w : world) :
  (∀ a, grpcGetters (RemovePeers l gp w).2.1 !! a =
        if decide (a ∈ l) then None else grpcGetters gp !! a) ∧
  (∀ c, c ∈ closed (RemovePeers l gp w).2.2 ↔
        c ∈ closed w ∨
        ∃ a g, a ∈ l ∧ grpcGetters gp !! a = Some g ∧ conn g = Some c) ∧
  peers (RemovePeers l gp w).2.1 = peers gp ∧
  self (RemovePeers l gp w).2.1 = self gp ∧
  opts (RemovePeers l gp w).2.1 = opts gp ∧
  dialed (RemovePeers l gp w).2.2 = dialed w ∧
  next_conn (RemovePeers l gp w).2.2 = next_conn w.
Proof.
  unfold RemovePeers; cbn [fst snd].
  destruct (RemovePeers_peers l gp w) as (Hp & Hs & Ho).
  destruct (RemovePeers_dials_nothing l gp w) as (Hd & Hn).
  split; [intros a; apply RemovePeers_lookup|].
  split; [|done].
  intros c. rewrite RemovePeers_closed. split; intros [?|?]; auto.
Qed.

(** X12.  [RemovePeers] changes pool or environment exactly when a listed
    address is a member: with no member in the list everything is as before,
    and with one it is not. *)
Theorem RemovePeers_noop_iff (l : list string) (gp : pool) (w : world) :
  (RemovePeers l gp w).2 = (gp, w) ↔ ∀ a, a ∈ l → grpcGetters gp !! a = None.
Proof.
  split.
  - intros Heq a Ha.
    assert (grpcGetters (RemovePeers l gp w).2.1 !! a = None) as Hnone.
    { unfold RemovePeers; cbn [fst snd]. rewrite RemovePeers_lookup.
      by rewrite decide_True. }
    by rewrite Heq in Hnone.
  - intros Hl. by rewrite (RemovePeers_not_member l gp w Hl).
Qed.

(** X13.  [RemovePeers] called again with the same list changes nothing. *)
Theorem RemovePeers_twice (l : list string) (gp : pool) (w : world) :
  RemovePeers l (RemovePeers l gp w).2.1 (RemovePeers l gp w).2.2 =
    (Ok MkAck, (RemovePeers l gp w).2).
Proof.
  destruct (RemovePeers l gp w).2 as [gp1 w1] eqn:E; cbn [fst snd].
  apply RemovePeers_not_member. intros a Ha.
  change gp1 with (gp1, w1).1. rewrite <- E.
  unfold RemovePeers; cbn [fst snd]. rewrite RemovePeers_lookup.
  by rewrite decide_True.
Qed.

End RemovePeersFacts.

Section RoundTrip.

Context {Hash : Type}.
Variable dial_error : string → option string.

(** X14.  Adding a list of addresses none of which is a member and removing
    the same list again gives back the connection map the pool started with,
    and every connection created on the way is closed. *)
Theorem AddPeers_RemovePeers_round_trip (l : list string) (gp : GRPCPool Hash) (w : world) :
  (∀ a, a ∈ l → grpcGetters gp !! a = None) →
  let st1 := (AddPeers dial_error l gp w).2 in
  let st2 := (RemovePeers l st1.1 st1.2).2 in
  grpcGetters st2.1 = grpcGetters gp ∧
  next_conn st2.2 = next_conn st1.2 ∧
  ∀ c, (next_conn w ≤ c < next_conn st2.2)%nat → c ∈ closed st2.2.
Proof.
  intros Hl. unfold AddPeers, RemovePeers; cbv zeta; cbn [fst snd].
  destruct (AddPeers_loop dial_error l (gp, w)) as [gp1 w1] eqn:E; cbn [fst snd].
  destruct (RemovePeers_dials_nothing l gp1 w1) as (_ & ->).
  split; [|split; [done|]].
  - apply map_eq. intros a. rewrite RemovePeers_lookup.
    case_decide as Ha; [symmetry; by apply Hl|].
    change gp1 with (gp1, w1).1. rewrite <- E. by apply AddPeers_lookup_notin.
  - intros c Hc.
    assert (∃ a, a ∈ l ∧ holds_conn (grpcGetters gp1) c a) as (a & Ha & g & Hg & Hcg).
    { change gp1 with (gp1, w1).1. rewrite <- E.
      apply AddPeers_created_held. by rewrite E. }
    apply RemovePeers_closed. left. by exists a, g.
Qed.

End RoundTrip.

(** ** Members hold open connections *)

Lemma holds_conn_insert (m : gmap string grpcGetter) (p : string) (g : grpcGetter)
    (c : nat) (a : string) :
  holds_conn (<[p := g]> m) c a ↔
  (a = p ∧ conn g = Some c) ∨ (a ≠ p ∧ holds_conn m c a).
Proof.
  unfold holds_conn. destruct (decide (a = p)) as [->|Hne].
  - rewrite lookup_insert_eq. split.
    + intros (g' & [= <-] & Hc). by left.
    + intros [[_ Hc]|[? _]]; [by exists g | done].
  - rewrite lookup_insert_ne by done. split; [by right | by intros [[? _]|[_ ?]]].
Qed.

Lemma holds_conn_delete (m : gmap string grpcGetter) (p : string) (c : nat) (a : string) :
  holds_conn (delete p m) c a ↔ a ≠ p ∧ holds_conn m c a.
Proof.
  unfold holds_conn. destruct (decide (a = p)) as [->|Hne].
  - rewrite lookup_delete_eq. split; [by intros (? & [=] & _) | by intros [? _]].
  - rewrite lookup_delete_ne by done. split; [done | by intros [_ ?]].
Qed.

Lemma holds_conn_empty (c : nat) (a : string) : ¬ holds_conn ∅ c a.
Proof. intros (g & Hg & _). by rewrite lookup_empty in Hg. Qed.

Section LiveFacts.

Context {Hash : Type}.
Variable dial_error : string → option string.

Abbreviation pool := (GRPCPool Hash).
Abbreviation locals := (set_locals Hash).

Lemma Set_body_live (d : list DialOption) (peer : string) (s : locals) :
  set_locals_live s → set_locals_live (Set_body dial_error d peer s).
Proof.
  intros (Hb & Hcl & Hio & Hit & Hdis).
  destruct (sl_old s !! peer) as [g|] eqn:Hold;
    [ rewrite (Set_body_reuse dial_error d peer s g Hold)
    | destruct (dial_error peer) as [cause|] eqn:Hdial;
      [ rewrite (Set_body_dial_failed dial_error d peer cause s Hold Hdial)
      | rewrite (Set_body_dial_ok dial_error d peer s Hold Hdial) ] ];
    unfold set_locals_live; cbn [sl_world sl_old sl_temp next_conn closed].
  - assert (∀ c, conn g = Some c → holds_conn (sl_old s) c peer) as Hpeer
      by (intros c Hc; by exists g).
    repeat split.
    + destruct H as [H|H]; [apply holds_conn_delete in H as [_ H] |
        apply holds_conn_insert in H as [[-> H]|[_ H]]]; eapply Hb; eauto.
    + destruct H as [H|H]; [apply holds_conn_delete in H as [_ H] |
        apply holds_conn_insert in H as [[-> H]|[_ H]]]; eapply Hb; eauto.
    + done.
    + intros a b c [_ Ha]%holds_conn_delete [_ Hb']%holds_conn_delete. eauto.
    + intros a b c [[-> Ha]|[Hna Ha]]%holds_conn_insert
                   [[-> Hb']|[Hnb Hb']]%holds_conn_insert; eauto.
      * exfalso. eapply Hdis; eauto.
      * exfalso. eapply Hdis; eauto.
    + intros a b c [Hna Ha]%holds_conn_delete [[-> Hb']|[Hnb Hb']]%holds_conn_insert.
      * apply Hna. eauto.
      * eauto.
  - done.
  - repeat split.
    + destruct H as [H|H]; [|apply holds_conn_insert in H as [[-> [= <-]]|[_ H]]];
        try lia; assert ((c < next_conn (sl_world s))%nat) by (eapply Hb; eauto); lia.
    + destruct H as [H|H]; [|apply holds_conn_insert in H as [[-> [= <-]]|[_ H]]].
      * eapply Hb; eauto.
      * intros Hin. apply Hcl in Hin. lia.
      * eapply Hb; eauto.
    + intros c Hc. apply Hcl in Hc. lia.
    + done.
    + intros a b c [[-> [= <-]]|[Hna Ha]]%holds_conn_insert
                   [[-> Hc]|[Hnb Hb']]%holds_conn_insert; eauto.
      * assert ((next_conn (sl_world s) < next_conn (sl_world s))%nat)
          by (eapply Hb; eauto). lia.
      * injection Hc as <-.
        assert ((next_conn (sl_world s) < next_conn (sl_world s))%nat)
          by (eapply Hb; eauto). lia.
    + intros a b c Ha [[-> [= <-]]|[Hnb Hb']]%holds_conn_insert; [|eauto].
      assert ((next_conn (sl_world s) < next_conn (sl_world s))%nat)
        by (eapply Hb; eauto). lia.
Qed.

Lemma Set_loop_live (d : list DialOption) (P : list string) (s : locals) :
  set_locals_live s → set_locals_live (Set_loop dial_error d P s).
Proof.
  revert s. induction P as [|peer P IH]; intros s Hs; simpl; [done|].
  by apply IH, Set_body_live.
Qed.

Lemma Set_live (P : list string) (gp : pool) (w : world) :
  connections_live gp w →
  connections_live (GRPCPool_Set dial_error P gp w).1 (GRPCPool_Set dial_error P gp w).2.
Proof.
  intros (Hb & Hcl & Hinj). unfold GRPCPool_Set; cbn [fst snd].
  set (s0 := {| sl_world := w;
                sl_peers := consistenthash.New (Replicas (opts gp)) (HashFn (opts gp));
                sl_old := grpcGetters gp; sl_temp := ∅ |}).
  assert (set_locals_live s0) as Hs0.
  { unfold set_locals_live, s0; cbn [sl_world sl_old sl_temp]. repeat split.
    - destruct H as [H|H]; [by eapply Hb | by apply holds_conn_empty in H].
    - destruct H as [H|H]; [by eapply Hb | by apply holds_conn_empty in H].
    - done.
    - done.
    - intros a b c H. by apply holds_conn_empty in H.
    - intros a b c _ H. by apply holds_conn_empty in H. }
  pose proof (Set_loop_live (dial_options (opts gp)) P s0 Hs0) as (Hb' & Hcl' & _ & Hit & Hdis).
  set (s := Set_loop dial_error (dial_options (opts gp)) P s0) in *.
  destruct (close_all_other_fields (sl_old s) (sl_world s)) as (Hn & _ & _).
  unfold connections_live; cbn [grpcGetters]. rewrite Hn.
  split; [|split].
  - intros a c Ha. split; [eapply Hb'; eauto|].
    rewrite close_all_closed. intros [(b & g & Hg & Hc)|Hin].
    + eapply Hdis; [exists g; eauto | exact Ha].
    + eapply Hb'; eauto.
  - intros c. rewrite close_all_closed. intros [(b & g & Hg & Hc)|Hin]; [|by apply Hcl'].
    eapply Hb'. left. exists g; eauto.
  - exact Hit.
Qed.

Lemma AddPeers_body_live (peer : string) (gp : pool) (w : world) :
  connections_live gp w →
  connections_live (AddPeers_body dial_error peer (gp, w)).1
                   (AddPeers_body dial_error peer (gp, w)).2.
Proof.
  intros (Hb & Hcl & Hinj).
  destruct (grpcGetters gp !! peer) as [g|] eqn:Hold;
    [ rewrite (AddPeers_body_present dial_error peer gp w g Hold)
    | destruct (dial_error peer) as [cause|] eqn:Hdial;
      [ rewrite (AddPeers_body_dial_failed dial_error peer cause gp w Hold Hdial)
      | rewrite (AddPeers_body_dial_ok dial_error peer gp w Hold Hdial) ] ];
    unfold connections_live; cbn [fst snd grpcGetters next_conn closed]; [done | done |].
  split; [|split].
  - intros a c [[-> [= <-]]|[_ Ha]]%holds_conn_insert.
    + split; [lia|]. intros Hin. apply Hcl in Hin. lia.
    + destruct (Hb a c Ha). split; [lia | done].
  - intros c Hc. apply Hcl in Hc. lia.
  - intros a b c [[-> [= <-]]|[Hna Ha]]%holds_conn_insert
                 [[-> Hc]|[Hnb Hb']]%holds_conn_insert; eauto.
    + destruct (Hb b _ Hb'). lia.
    + injection Hc as <-. destruct (Hb a _ Ha). lia.
Qed.

Lemma AddPeers_live (l : list string) (gp : pool) (w : world) :
  connections_live gp w →
  connections_live (AddPeers_loop dial_error l (gp, w)).1
                   (AddPeers_loop dial_error l (gp, w)).2.
Proof.
  intros H0.
  apply (AddPeers_loop_ind dial_error (λ st, connections_live st.1 st.2) l (gp, w));
    [|exact H0].
  intros peer [gp' w'] H. by apply AddPeers_body_live.
Qed.

Lemma RemovePeers_body_live (peer : string) (gp : pool) (w : world) :
  connections_live gp w →
  connections_live (RemovePeers_body peer (gp, w)).1 (RemovePeers_body peer (gp, w)).2.
Proof.
  intros (Hb & Hcl & Hinj).
  destruct (grpcGetters gp !! peer) as [p|] eqn:Hold;
    [ rewrite (RemovePeers_body_present peer gp w p Hold)
    | by rewrite (RemovePeers_body_absent peer gp w Hold) ].
  unfold connections_live; cbn [fst snd grpcGetters].
  destruct (close_other_fields p (write_log (Info_removing peer) w)) as (-> & _ & _).
  cbn [write_log next_conn].
  split; [|split].
  - intros a c [Hna Ha]%holds_conn_delete.
    destruct (Hb a c Ha) as [Hlt Hnc]. split; [done|].
    rewrite close_closed. intros [Hp|Hin]; [|done].
    apply Hna. eapply Hinj; [exact Ha | by exists p].
  - intros c. rewrite close_closed. intros [Hp|Hin]; [|by apply Hcl].
    eapply Hb. by exists p.
  - intros a b c [_ Ha]%holds_conn_delete [_ Hb']%holds_conn_delete. eauto.
Qed.

Lemma RemovePeers_live (l : list string) (gp : pool) (w : world) :
  connections_live gp w →
  connections_live (RemovePeers_loop l (gp, w)).1 (RemovePeers_loop l (gp, w)).2.
Proof.
  intros H0.
  apply (RemovePeers_loop_ind (λ st, connections_live st.1 st.2) l (gp, w)); [|exact H0].
  intros peer [gp' w'] H. by apply RemovePeers_body_live.
Qed.

Lemma Set_connected (P : list string) (gp : pool) (w : world) :
  members_connected gp → members_connected (GRPCPool_Set dial_error P gp w).1.
Proof.
  intros Hc a g. unfold GRPCPool_Set; cbn [fst grpcGetters]. intros Hg.
  apply Set_loop_temp_origin in Hg as [Ht|[Ho|(_ & c & Hcg & _)]].
  - cbn [sl_temp] in Ht. by rewrite lookup_empty in Ht.
  - by apply (Hc a).
  - by exists c.
Qed.

Lemma AddPeers_connected (l : list string) (gp : pool) (w : world) :
  members_connected gp → members_connected (AddPeers_loop dial_error l (gp, w)).1.
Proof.
  intros Hc a g Hg.
  destruct (grpcGetters gp !! a) as [g0|] eqn:Hold.
  - rewrite (AddPeers_keeps dial_error l gp w a g0 Hold) in Hg.
    injection Hg as <-. by apply (Hc a).
  - destruct (AddPeers_new_getter dial_error l gp w a g Hold Hg) as (_ & c & Hcg & _).
    by exists c.
Qed.

Lemma RemovePeers_connected (l : list string) (gp : pool) (w : world) :
  members_connected gp → members_connected (RemovePeers_loop l (gp, w)).1.
Proof.
  intros Hc a g. rewrite RemovePeers_lookup.
  case_decide; [done | apply Hc].
Qed.

Lemma serve_all_live (rs : list request) (gp : pool) (w : world) :
  connections_live gp w →
  connections_live (serve_all dial_error rs (gp, w)).1 (serve_all dial_error rs (gp, w)).2.
Proof.
  revert gp w. induction rs as [|r rs IH]; intros gp w H0; simpl; [done|].
  destruct r as [l|l|l]; unfold serve, SetPeers, AddPeers, RemovePeers; cbn [fst snd].
  - destruct (GRPCPool_Set dial_error l gp w) as [gp1 w1] eqn:E.
    apply IH. change gp1 with (gp1, w1).1. change w1 with (gp1, w1).2 at 2.
    rewrite <- E. by apply Set_live.
  - destruct (AddPeers_loop dial_error l (gp, w)) as [gp1 w1] eqn:E.
    apply IH. change gp1 with (gp1, w1).1. change w1 with (gp1, w1).2 at 2.
    rewrite <- E. by apply AddPeers_live.
  - destruct (RemovePeers_loop l (gp, w)) as [gp1 w1] eqn:E.
    apply IH. change gp1 with (gp1, w1).1. change w1 with (gp1, w1).2 at 2.
    rewrite <- E. by apply RemovePeers_live.
Qed.

Lemma serve_all_connected (rs : list request) (gp : pool) (w : world) :
  members_connected gp → members_connected (serve_all dial_error rs (gp, w)).1.
Proof.
  revert gp w. induction rs as [|r rs IH]; intros gp w H0; simpl; [done|].
  destruct r as [l|l|l]; unfold serve, SetPeers, AddPeers, RemovePeers; cbn [fst snd].
  - destruct (GRPCPool_Set dial_error l gp w) as [gp1 w1] eqn:E.
    apply IH. change gp1 with (gp1, w1).1. rewrite <- E. by apply Set_connected.
  - destruct (AddPeers_loop dial_error l (gp, w)) as [gp1 w1] eqn:E.
    apply IH. change gp1 with (gp1, w1).1. rewrite <- E. by apply AddPeers_connected.
  - destruct (RemovePeers_loop l (gp, w)) as [gp1 w1] eqn:E.
    apply IH. change gp1 with (gp1, w1).1. rewrite <- E. by apply RemovePeers_connected.
Qed.

(** X15.  Through every run of membership requests the members hold open
    connections: from a pool in which every member has a connection and the
    connections are in good standing, whatever requests are served, the same
    holds afterwards; the getters [GetAll] returns are the getters of the
    members and no others, and each of them has a connection, which was
    created and is not closed; no connection is filed under two addresses. *)
Theorem members_hold_open_connections (rs : list request) (gp : pool) (w : world) :
  connections_live gp w →
  members_connected gp →
  connections_live (serve_all dial_error rs (gp, w)).1 (serve_all dial_error rs (gp, w)).2 ∧
  members_connected (serve_all dial_error rs (gp, w)).1 ∧
  (∀ g, g ∈ GetAll (serve_all dial_error rs (gp, w)).1 ↔
        ∃ a, grpcGetters (serve_all dial_error rs (gp, w)).1 !! a = Some g) ∧
  (∀ g, g ∈ GetAll (serve_all dial_error rs (gp, w)).1 →
        ∃ c, conn g = Some c ∧
             (c < next_conn (serve_all dial_error rs (gp, w)).2)%nat ∧
             c ∉ closed (serve_all dial_error rs (gp, w)).2) ∧
  (∀ g c, g ∈ GetAll (serve_all dial_error rs (gp, w)).1 → conn g = Some c →
          (c < next_conn (serve_all dial_error rs (gp, w)).2)%nat ∧
          c ∉ closed (serve_all dial_error rs (gp, w)).2).
Proof.
  intros H0 Hc0.
  pose proof (serve_all_live rs gp w H0) as Hlive.
  pose proof (serve_all_connected rs gp w Hc0) as Hconn.
  assert (∀ g, g ∈ GetAll (serve_all dial_error rs (gp, w)).1 ↔
               ∃ a, grpcGetters (serve_all dial_error rs (gp, w)).1 !! a = Some g) as Hall.
  { intros g. unfold GetAll. rewrite list_elem_of_fmap. split.
    - intros ([a g'] & -> & Hin). exists a. by apply elem_of_map_to_list.
    - intros [a Ha]. exists (a, g). split; [done | by apply elem_of_map_to_list]. }
  destruct Hlive as (Hb & Hcl & Hinj).
  split; [done|]. split; [done|]. split; [done|]. split.
  - intros g [a Ha]%Hall. destruct (Hconn a g Ha) as [c Hc].
    exists c. split; [done|]. apply (Hb a c). by exists g.
  - intros g c [a Ha]%Hall Hc. apply (Hb a c). by exists g.
Qed.

End LiveFacts.

(** ** Selection and snapshot *)

Section SelectionFacts.

Context {Hash : Type}.
Variable ring_owner : ring Hash → string → string.

(** X16.  In a pool whose ring and connection map agree and whose getters are
    filed under their own address, with a ring that gives every key to one of
    its members: [PickPeer] reports a peer exactly when the ring is not empty
    and the owner is not [self], and then the getter it returns is one of the
    pool's, bound to the owner's address, never nil and never [self]'s. *)
Theorem PickPeer_in_agreeing_pool (gp : GRPCPool Hash) (key : string) :
  (∀ r k, consistenthash.IsEmpty r = false → ring_owner r k ∈ ring_members r) →
  ring_matches_connections gp →
  keyed_by_address (grpcGetters gp) →
  ((PickPeer ring_owner gp key).2 = true ↔
     consistenthash.IsEmpty (peers gp) = false ∧ ring_owner (peers gp) key ≠ self gp) ∧
  (PickPeer ring_owner gp key = (None, false) ∨
   ∃ g, PickPeer ring_owner gp key = (Some g, true) ∧
        g ∈ GetAll gp ∧
        GetURL g = ring_owner (peers gp) key ∧
        GetURL g ≠ self gp).
Proof.
  intros Hmember Hagree Hkeyed. unfold PickPeer.
  destruct (consistenthash.IsEmpty (peers gp)) eqn:Hempty.
  - split; [|by left]. split; [done | by intros [? _]].
  - destruct (decide (ring_owner (peers gp) key ≠ self gp)) as [Hne|Heq].
    + split; [done|]. right.
      destruct (proj1 (Hagree (ring_owner (peers gp) key))) as [g Hg];
        [by apply Hmember|].
      exists g. rewrite Hg. split; [done|].
      assert (GetURL g = ring_owner (peers gp) key) as Hurl by (by apply Hkeyed).
      split; [|split; [done | by rewrite Hurl]].
      unfold GetAll. apply list_elem_of_fmap.
      exists (ring_owner (peers gp) key, g). split; [done|].
      by apply elem_of_map_to_list.
    + split; [|by left]. split; [done | by intros [_ ?]].
Qed.

(** X17.  [GetAll] returns the getters of the connection map, one for each
    key; in a pool whose getters are filed under their own address that is one
    getter for each member address. *)
Theorem GetAll_snapshot (gp : GRPCPool Hash) :
  length (GetAll gp) = size (grpcGetters gp) ∧
  (∀ g, g ∈ GetAll gp ↔ ∃ a, grpcGetters gp !! a = Some g) ∧
  (keyed_by_address (grpcGetters gp) →
     NoDup (GetURL <$> GetAll gp) ∧
     ∀ a, a ∈ GetURL <$> GetAll gp ↔ is_Some (grpcGetters gp !! a)).
Proof.
  unfold GetAll. split; [|split].
  - by rewrite length_fmap, length_map_to_list.
  - intros g. rewrite list_elem_of_fmap. split.
    + intros ([a g'] & -> & Hin). exists a. by apply elem_of_map_to_list.
    + intros [a Ha]. exists (a, g). split; [done | by apply elem_of_map_to_list].
  - intros Hkeyed.
    assert (GetURL <$> (map_to_list (grpcGetters gp)).*2 =
            (map_to_list (grpcGetters gp)).*1) as ->.
    { assert (∀ l : list (string * grpcGetter),
        (∀ a g, (a, g) ∈ l → address g = a) → GetURL <$> l.*2 = l.*1) as Hl.
      { induction l as [|[a g] l IH]; intros Hin; simpl; [done|].
        f_equal; [apply Hin; by left | apply IH; intros; apply Hin; by right]. }
      apply Hl. intros a g Hin. apply Hkeyed. by apply elem_of_map_to_list. }
    split; [apply NoDup_fst_map_to_list|].
    intros a. rewrite list_elem_of_fmap. split.
    + intros ([a' g] & -> & Hin). exists g. by apply elem_of_map_to_list.
    + intros [g Hg]. exists (a, g). split; [done | by apply elem_of_map_to_list].
Qed.

End SelectionFacts.

(** ** Defaults of the constructor *)

Section DefaultsFacts.

Context {Hash : Type}.
Variable defaultReplicas : Z.

(** X18.  The options of a constructed pool: a replica count of zero, or no
    options at all, gives the default replica count and any other count is
    kept; the dial options given are kept and missing ones become the
    insecure transport; the hash function is kept.  The pool starts with an
    empty ring built from these options and without members, so that [GetAll]
    is empty and [PickPeer] finds no peer; the server is recorded after those
    registered before. *)
Theorem NewGRPCPoolOptions_defaults (self0 : string) (server : nat)
    (o : option (GRPCPoolOptions Hash)) (p : process) :
  grpcPoolCreated p = false →
  ∃ gp p1,
    NewGRPCPoolOptions defaultReplicas self0 server o p = (Returned gp, p1) ∧
    self gp = self0 ∧
    Replicas (opts gp) =
      (if (Replicas (default zero_options o) =? 0)%Z then defaultReplicas
       else Replicas (default zero_options o)) ∧
    HashFn (opts gp) = HashFn (default zero_options o) ∧
    PeerDialOptions (opts gp) =
      Some (default [WithInsecure] (PeerDialOptions (default zero_options o))) ∧
    peers gp = consistenthash.New (Replicas (opts gp)) (HashFn (opts gp)) ∧
    GetAll gp = [] ∧
    (∀ ring_owner key, PickPeer ring_owner gp key = (None, false)) ∧
    p1 = {| grpcPoolCreated := true; picker_registered := true;
            peer_servers := peer_servers p ++ [server] |}.
Proof.
  intros Hp. unfold NewGRPCPoolOptions. rewrite Hp.
  eexists _, _. split; [reflexivity|].
  cbn [self opts peers grpcGetters].
  destruct (Replicas (default zero_options o) =? 0)%Z; cbn [PeerDialOptions];
    destruct (PeerDialOptions (default zero_options o)) eqn:E;
    cbn [Replicas HashFn PeerDialOptions default]; rewrite ?E;
    repeat split; done.
Qed.

End DefaultsFacts.

(** ** Runs of inbound calls *)

Section RunFacts.

Context {L : Type}.
Variable Group_Get : L → string → fetched * L.
Variable Group_localRemove : L → string → L.

Abbreviation registry := (gmap string (Group L)).

(** One call: the group it names, when registered, gets one more server
    request; every other name keeps what the registry held. *)
Lemma handle_lookup (r : rpc) (groups : registry) (name : string) :
  ServerRequests <$> handle Group_Get Group_localRemove r groups !! name =
  if decide (rpc_group r = name)
  then (λ g, AtomicInt_Add (ServerRequests g) 1) <$> groups !! name
  else ServerRequests <$> groups !! name.
Proof.
  destruct r as [req|req]; unfold handle, Retrieve, Delete, GetGroup; cbn [rpc_group].
  - destruct (groups !! rr_Group req) as [g|] eqn:Hg; cbn [snd].
    + destruct (Group_Get (local (record_server_request g)) (rr_Key req))
        as [[value|cause] l]; cbn [snd];
        (case_decide as Hn; [subst name; by rewrite lookup_insert_eq, Hg
                            | by rewrite lookup_insert_ne]).
    + case_decide as Hn; [subst name; by rewrite Hg | done].
  - destruct (groups !! dr_Group req) as [g|] eqn:Hg; cbn [snd].
    + case_decide as Hn; [subst name; by rewrite lookup_insert_eq, Hg
                         | by rewrite lookup_insert_ne].
    + case_decide as Hn; [subst name; by rewrite Hg | done].
Qed.

(** X19.  The inbound handlers never register or drop a group: after any run
    of [Retrieve] and [Delete] calls, for known and unknown groups alike, the
    registered names are the ones registered before. *)
Theorem handlers_keep_registered_groups (rs : list rpc) (groups : registry) (name : string) :
  is_Some (handle_all Group_Get Group_localRemove rs groups !! name) ↔
  is_Some (groups !! name).
Proof.
  revert groups. induction rs as [|r rs IH]; intros groups; simpl; [done|].
  rewrite IH.
  pose proof (handle_lookup r groups name) as H.
  destruct (handle Group_Get Group_localRemove r groups !! name) as [g'|],
           (groups !! name) as [g|]; try done;
    case_decide; simpl in H; try done.
Qed.

(** X20.  The server-request counter of a group counts the inbound calls that
    name it: after a run of [Retrieve] and [Delete] calls, whether the fetches
    succeeded or not, the counter has grown by the number of calls naming the
    group, as long as that stays within an int64. *)
Theorem ServerRequests_counts_calls (rs : list rpc) (groups : registry)
    (name : string) (g : Group L) :
  groups !! name = Some g →
  (- 2 ^ 63 ≤ ServerRequests g)%Z →
  (ServerRequests g + Z.of_nat (length (filter (λ r, rpc_group r = name) rs)) < 2 ^ 63)%Z →
  ServerRequests <$> handle_all Group_Get Group_localRemove rs groups !! name =
    Some (ServerRequests g + Z.of_nat (length (filter (λ r, rpc_group r = name) rs)))%Z.
Proof.
  revert groups g. induction rs as [|r rs IH]; intros groups g Hg Hlo Hhi; simpl.
  - rewrite Hg; simpl. f_equal. lia.
  - pose proof (handle_lookup r groups name) as Hstep.
    rewrite Hg in Hstep. rewrite filter_cons in *.
    destruct (decide (rpc_group r = name)) as [Hn|Hn]; simpl in Hstep, Hhi.
    + destruct (handle Group_Get Group_localRemove r groups !! name) as [g'|] eqn:Hg';
        [|done].
      injection Hstep as Hcount.
      rewrite AtomicInt_Add_1 in Hcount by lia.
      rewrite (IH _ g' Hg') by (rewrite Hcount; simpl; lia).
      f_equal. rewrite Hcount. simpl. lia.
    + destruct (handle Group_Get Group_localRemove r groups !! name) as [g'|] eqn:Hg';
        [|done].
      injection Hstep as Hcount.
      rewrite (IH _ g' Hg') by (rewrite Hcount; lia).
      f_equal. by rewrite Hcount.
Qed.

End RunFacts.

(** ** [AddPeers] and [Set] on a pool without members *)

Section AddVersusSet.

Context {Hash : Type}.
Variable dial_error : string → option string.

Lemma Set_loop_as_AddPeers_loop (d : list DialOption) (l : list string)
    (s : set_locals Hash) (gp : GRPCPool Hash) (w : world) :
  NoDup l →
  sl_old s = ∅ →
  sl_temp s = grpcGetters gp →
  (∀ a, a ∈ l → grpcGetters gp !! a = None) →
  next_conn (sl_world s) = next_conn w →
  dialed (sl_world s) = dialed w →
  closed (sl_world s) = closed w →
  sl_old (Set_loop dial_error d l s) = ∅ ∧
  sl_temp (Set_loop dial_error d l s) = grpcGetters (AddPeers_loop dial_error l (gp, w)).1 ∧
  next_conn (sl_world (Set_loop dial_error d l s)) =
    next_conn (AddPeers_loop dial_error l (gp, w)).2 ∧
  dialed (sl_world (Set_loop dial_error d l s)) =
    dialed (AddPeers_loop dial_error l (gp, w)).2 ∧
  closed (sl_world (Set_loop dial_error d l s)) =
    closed (AddPeers_loop dial_error l (gp, w)).2 ∧
  ∃ added,
    ring_members (sl_peers (Set_loop dial_error d l s)) =
      ring_members (sl_peers s) ++ added ∧
    ring_members (peers (AddPeers_loop dial_error l (gp, w)).1) =
      ring_members (peers gp) ++ added.
Proof.
  revert s gp w. induction l as [|peer l IH]; intros s gp w Hnd Ho Ht Hl Hn Hdl Hc; simpl.
  - repeat split; try done. exists []. by rewrite !app_nil_r.
  - apply NoDup_cons in Hnd as [Hpeer Hnd].
    assert (sl_old s !! peer = None) as Hold by (by rewrite Ho, lookup_empty).
    assert (grpcGetters gp !! peer = None) as Hgp by (apply Hl; by left).
    destruct (dial_error peer) as [cause|] eqn:Hdial.
    + rewrite (Set_body_dial_failed dial_error d peer cause s Hold Hdial).
      rewrite (AddPeers_body_dial_failed dial_error peer cause gp w Hgp Hdial).
      match goal with
      | |- context [Set_loop dial_error d l ?s'] =>
        match goal with
        | |- context [AddPeers_loop dial_error l (?gp', ?w')] =>
            destruct (IH s' gp' w') as (H1 & H2 & H3 & H4 & H5 & added & H6 & H7)
        end
      end; cbn [sl_old sl_temp sl_world next_conn dialed closed grpcGetters]; try done.
      * intros a Ha. apply Hl. by right.
      * by rewrite Hdl.
      * repeat split; try done. by exists added.
    + rewrite (Set_body_dial_ok dial_error d peer s Hold Hdial).
      rewrite (AddPeers_body_dial_ok dial_error peer gp w Hgp Hdial).
      match goal with
      | |- context [Set_loop dial_error d l ?s'] =>
        match goal with
        | |- context [AddPeers_loop dial_error l (?gp', ?w')] =>
            destruct (IH s' gp' w') as (H1 & H2 & H3 & H4 & H5 & added & H6 & H7)
        end
      end; cbn [sl_old sl_temp sl_world next_conn dialed closed grpcGetters]; try done.
      * by rewrite Ht, Hn.
      * intros a Ha. rewrite lookup_insert_ne by (by intros ->). apply Hl. by right.
      * by rewrite Hn.
      * by rewrite Hdl.
      * repeat split; try done. exists (peer :: added).
        rewrite H6, H7. cbn [sl_peers peers consistenthash.Add ring_members].
        by rewrite <- !app_assoc.
Qed.

(** X22.  On a pool without members, [AddPeers] and [Set] with the same
    duplicate-free list build the same connection map, with the same
    connections, from the same dials, and add the same addresses to the ring
    in the same order; [Set] starts from an empty ring, [AddPeers] from the
    ring of the pool. *)
Theorem AddPeers_as_Set_without_members (l : list string) (gp : GRPCPool Hash) (w : world) :
  NoDup l → grpcGetters gp = ∅ →
  grpcGetters (AddPeers dial_error l gp w).2.1 =
    grpcGetters (GRPCPool_Set dial_error l gp w).1 ∧
  ring_members (peers (AddPeers dial_error l gp w).2.1) =
    ring_members (peers gp) ++ ring_members (peers (GRPCPool_Set dial_error l gp w).1) ∧
  next_conn (AddPeers dial_error l gp w).2.2 = next_conn (GRPCPool_Set dial_error l gp w).2 ∧
  dialed (AddPeers dial_error l gp w).2.2 = dialed (GRPCPool_Set dial_error l gp w).2 ∧
  closed (AddPeers dial_error l gp w).2.2 = closed (GRPCPool_Set dial_error l gp w).2.
Proof.
  intros Hnd Hempty. unfold AddPeers, GRPCPool_Set; cbn [fst snd grpcGetters peers].
  set (s0 := {| sl_world := w;
                sl_peers := consistenthash.New (Replicas (opts gp)) (HashFn (opts gp));
                sl_old := grpcGetters gp; sl_temp := ∅ |}).
  destruct (Set_loop_as_AddPeers_loop (dial_options (opts gp)) l s0 gp w)
    as (Ho & Ht & Hn & Hd & Hc & added & Hr1 & Hr2); try done.
  { intros a _. by rewrite Hempty, lookup_empty. }
  destruct (close_all_other_fields
    (sl_old (Set_loop dial_error (dial_options (opts gp)) l s0))
    (sl_world (Set_loop dial_error (dial_options (opts gp)) l s0))) as (-> & -> & _).
  rewrite Ho, close_all_empty.
  repeat split; try done.
  rewrite Hr1, Hr2. done.
Qed.

End AddVersusSet.

(** ** An address listed twice *)

Section RepeatedAddress.

Context {Hash : Type}.
Variable dial_error : string → option string.

Abbreviation pool := (GRPCPool Hash).
Abbreviation locals := (set_locals Hash).

Lemma Set_loop_app (d : list DialOption) (l1 l2 : list string) (s : locals) :
  Set_loop dial_error d (l1 ++ l2) s =
  Set_loop dial_error d l2 (Set_loop dial_error d l1 s).
Proof. revert s. induction l1 as [|peer l1 IH]; intros s; simpl; [done | apply IH]. Qed.

(** A member listed exactly once is carried over with the getter it had,
    whatever else the list repeats. *)
Lemma Set_reuses_address_listed_once (l1 l2 : list string) (a : string)
    (g : grpcGetter) (gp : pool) (w : world) :
  a ∉ l1 → a ∉ l2 → grpcGetters gp !! a = Some g →
  grpcGetters (GRPCPool_Set dial_error (l1 ++ a :: l2) gp w).1 !! a = Some g.
Proof.
  intros H1 H2 Hg. unfold GRPCPool_Set; cbn [fst grpcGetters].
  rewrite Set_loop_app. cbn [Set_loop].
  rewrite Set_loop_temp_notin by done.
  match goal with
  | |- sl_temp (Set_body dial_error ?d a ?s) !! a = _ =>
      rewrite (Set_body_reuse dial_error d a s g)
  end.
  - cbn [sl_temp]. apply lookup_insert_eq.
  - rewrite Set_loop_old. by rewrite decide_False.
Qed.

(** [Set] with a reachable address listed twice: the second occurrence is
    dialed whether or not the address was a member, and the getter filed is
    the one of that last dial. *)
Lemma Set_listed_twice (a : string) (gp : pool) (w : world) :
  dial_error a = None →
  grpcGetters (GRPCPool_Set dial_error [a; a] gp w).1 !! a =
    Some {| address := a;
            conn := Some (pred (next_conn (GRPCPool_Set dial_error [a; a] gp w).2)) |} ∧
  (next_conn w < next_conn (GRPCPool_Set dial_error [a; a] gp w).2)%nat.
Proof.
  intros Hd. unfold GRPCPool_Set; cbn [fst snd grpcGetters Set_loop].
  set (s0 := {| sl_world := w;
                sl_peers := consistenthash.New (Replicas (opts gp)) (HashFn (opts gp));
                sl_old := grpcGetters gp; sl_temp := ∅ |}).
  match goal with
  | |- context [close_all ?m ?w'] =>
      destruct (close_all_other_fields m w') as (-> & _ & _)
  end.
  destruct (grpcGetters gp !! a) as [g|] eqn:Hg.
  - rewrite (Set_body_reuse dial_error (dial_options (opts gp)) a s0 g Hg).
    match goal with
    | |- context [Set_body dial_error ?d a ?s] =>
        rewrite (Set_body_dial_ok dial_error d a s);
          [| cbn [sl_old]; apply lookup_delete_eq | done]
    end.
    cbn [sl_temp sl_world next_conn]. rewrite lookup_insert_eq.
    split; [done | simpl; lia].
  - rewrite (Set_body_dial_ok dial_error (dial_options (opts gp)) a s0 Hg Hd).
    match goal with
    | |- context [Set_body dial_error ?d a ?s] =>
        rewrite (Set_body_dial_ok dial_error d a s); [| exact Hg | done]
    end.
    cbn [sl_temp sl_world next_conn]. rewrite lookup_insert_eq.
    split; [done | simpl; lia].
Qed.

(** C4.  Two [SetPeers] calls in a row with a reachable address listed
    twice, on a pool whose connections are in good standing: the getter the
    address holds after the second call is not the one it held after the
    first but one with a connection created by the second call, and the
    connection of the first is left behind, not closed and no longer filed
    under any address. *)
Theorem SetPeers_repeated_address_recreated (a : string) (gp : pool) (w : world) :
  dial_error a = None →
  connections_live gp w →
  let st1 := (SetPeers dial_error [a; a] gp w).2 in
  let st2 := (SetPeers dial_error [a; a] st1.1 st1.2).2 in
  ∃ c1 c2,
    grpcGetters st1.1 !! a = Some {| address := a; conn := Some c1 |} ∧
    grpcGetters st2.1 !! a = Some {| address := a; conn := Some c2 |} ∧
    (c1 < c2)%nat ∧
    (next_conn st1.2 < next_conn st2.2)%nat ∧
    (c1 ∉ closed st2.2) ∧
    ∀ b g, grpcGetters st2.1 !! b = Some g → conn g ≠ Some c1.
Proof.
  intros Hd (Hb & Hcl & _). unfold SetPeers; cbv zeta; cbn [fst snd].
  destruct (Set_listed_twice a gp w Hd) as [Hm1 Hn1].
  pose proof (Set_closed dial_error [a; a] gp w) as Hc1.
  pose proof (Set_lookup_dom dial_error [a; a] gp w) as Hdom1.
  destruct (GRPCPool_Set dial_error [a; a] gp w) as [gp1 w1] eqn:E1.
  cbn [fst snd] in *.
  destruct (Set_listed_twice a gp1 w1 Hd) as [Hm2 Hn2].
  pose proof (Set_closed dial_error [a; a] gp1 w1) as Hc2.
  pose proof (Set_lookup_dom dial_error [a; a] gp1 w1) as Hdom2.
  destruct (GRPCPool_Set dial_error [a; a] gp1 w1) as [gp2 w2] eqn:E2.
  cbn [fst snd] in *.
  exists (pred (next_conn w1)), (pred (next_conn w2)).
  split; [done|]. split; [done|]. split; [lia|]. split; [done|]. split.
  - intros Hin. apply Hc2 in Hin as [(b & g & Hnb & Hg & _)|Hin].
    + apply Hnb. apply Hdom1. by exists g.
    + apply Hc1 in Hin as [(b & g & _ & Hg & Hcg)|Hin].
      * assert ((pred (next_conn w1) < next_conn w)%nat) by (eapply Hb; by exists g). lia.
      * apply Hcl in Hin. lia.
  - intros b g Hg Hcg.
    assert (b ∈ [a; a]) as Hba by (apply Hdom2; by exists g).
    assert (b = a) as -> by (apply elem_of_cons in Hba as [?|Hba]; [done|];
                             by apply list_elem_of_singleton in Hba).
    rewrite Hm2 in Hg. injection Hg as <-. simpl in Hcg. injection Hcg as Hcg. lia.
Qed.

(** C7.  [SetPeers] with a member listed twice while its address cannot be
    dialed: the call acknowledges, the second occurrence is dialed, the dial
    fails and is logged, and the address is still a member, with the getter it
    had, and in the ring. *)
Theorem SetPeers_failed_dial_of_member (a cause : string) (g : grpcGetter)
    (gp : pool) (w : world) :
  grpcGetters gp !! a = Some g →
  dial_error a = Some cause →
  (SetPeers dial_error [a; a] gp w).1 = Ok MkAck ∧
  dialed (SetPeers dial_error [a; a] gp w).2.2 = dialed w ++ [a] ∧
  Warn_open_failed a (ErrConnect a cause) ∈ logged (SetPeers dial_error [a; a] gp w).2.2 ∧
  grpcGetters (SetPeers dial_error [a; a] gp w).2.1 !! a = Some g ∧
  a ∈ ring_members (peers (SetPeers dial_error [a; a] gp w).2.1).
Proof.
  intros Hg Hd. unfold SetPeers; cbn [fst snd]. split; [done|].
  unfold GRPCPool_Set; cbn [fst snd grpcGetters peers Set_loop].
  set (s0 := {| sl_world := w;
                sl_peers := consistenthash.New (Replicas (opts gp)) (HashFn (opts gp));
                sl_old := grpcGetters gp; sl_temp := ∅ |}).
  match goal with
  | |- context [close_all ?m ?w'] =>
      destruct (close_all_other_fields m w') as (_ & -> & ->)
  end.
  rewrite (Set_body_reuse dial_error (dial_options (opts gp)) a s0 g Hg).
  match goal with
  | |- context [Set_body dial_error ?d a ?s] =>
      rewrite (Set_body_dial_failed dial_error d a cause s);
        [| cbn [sl_old]; apply lookup_delete_eq | done]
  end.
  cbn [sl_temp sl_world sl_peers dialed logged consistenthash.Add consistenthash.New
       ring_members].
  split; [done|]. split.
  - apply elem_of_app. right. by apply list_elem_of_singleton.
  - split; [apply lookup_insert_eq | by left].
Qed.

End RepeatedAddress.

(** ** More worked examples *)

Lemma first_member_in_ring {Hash : Type} (r : ring Hash) (k : string) :
  consistenthash.IsEmpty r = false → first_member r k ∈ ring_members r.
Proof.
  unfold consistenthash.IsEmpty, first_member.
  destruct (ring_members r); [done | intros _; by left].
Qed.

Lemma pool_A_ring_matches : ring_matches_connections pool_A.
Proof.
  intros a; simpl. rewrite lookup_empty.
  split; [intros H; by apply elem_of_nil in H | intros [? [=]]].
Qed.

Lemma pool_A_live : connections_live pool_A world0.
Proof.
  unfold connections_live; simpl. repeat split.
  - by apply holds_conn_empty in H.
  - by apply holds_conn_empty in H.
  - intros c Hc. by apply not_elem_of_empty in Hc.
  - intros a b c H. by apply holds_conn_empty in H.
Qed.

Lemma st_BC_keyed : keyed_by_address (grpcGetters st_BC.1).
Proof.
  unfold st_BC, SetPeers; cbn [fst snd]. apply Set_keyed.
  intros a g. unfold pool_A; cbn [grpcGetters]. by rewrite lookup_empty.
Qed.

Lemma st_BC_ring_matches : ring_matches_connections st_BC.1.
Proof. unfold st_BC, SetPeers; cbn [fst snd]. apply Set_ring_matches. Qed.

Lemma Set_dials_new_addresses_witness :
  dialed (GRPCPool_Set all_reachable ["C"; "D"] st_BC.1 st_BC.2).2 =
    dialed st_BC.2 ++ filter (λ a, grpcGetters st_BC.1 !! a = None) ["C"; "D"] ∧
  next_conn (GRPCPool_Set all_reachable ["C"; "D"] st_BC.1 st_BC.2).2 =
    next_conn st_BC.2 +
    length (filter (λ a, grpcGetters st_BC.1 !! a = None ∧ all_reachable a = None)
              ["C"; "D"]).
Proof.
  apply (Set_dials_new_addresses all_reachable ["C"; "D"] st_BC.1 st_BC.2).
  compute_done.
Defined.

Lemma AddPeers_membership_witness :
  grpcGetters (AddPeers refuses_C ["B"; "C"] pool_A world0).2.1 !! "D" =
    grpcGetters pool_A !! "D".
Proof.
  apply (AddPeers_membership refuses_C ["B"; "C"] pool_A world0 "D").
  compute_done.
Defined.

Lemma AddPeers_existing_untouched_witness :
  grpcGetters (AddPeers all_reachable ["B"; "C"] st_B.1 st_B.2).2.1 !! "B" =
    Some {| address := "B"; conn := Some 0 |}.
Proof.
  apply (AddPeers_existing_untouched all_reachable ["B"; "C"] st_B.1 st_B.2).
  vm_compute; reflexivity.
Defined.

Lemma AddPeers_preserves_agreement_witness :
  ring_matches_connections (AddPeers refuses_C ["B"; "C"] pool_A world0).2.1 ∧
  ∀ a, a ∈ ring_members (peers (AddPeers refuses_C ["B"; "C"] pool_A world0).2.1) ↔
       a ∈ ring_members (peers pool_A) ∨ (a ∈ ["B"; "C"] ∧ refuses_C a = None).
Proof.
  apply (AddPeers_preserves_agreement refuses_C ["B"; "C"] pool_A world0).
  exact pool_A_ring_matches.
Defined.

Lemma AddPeers_twice_witness :
  AddPeers all_reachable ["B"; "C"]
      (AddPeers all_reachable ["B"; "C"] pool_A world0).2.1
      (AddPeers all_reachable ["B"; "C"] pool_A world0).2.2 =
    (Ok MkAck, (AddPeers all_reachable ["B"; "C"] pool_A world0).2).
Proof.
  apply (AddPeers_twice all_reachable ["B"; "C"] pool_A world0).
  intros a _. reflexivity.
Defined.

Lemma AddPeers_dials_new_addresses_witness :
  dialed (AddPeers refuses_C ["B"; "C"; "D"] st_B.1 st_B.2).2.2 =
    dialed st_B.2 ++ filter (λ a, grpcGetters st_B.1 !! a = None) ["B"; "C"; "D"] ∧
  next_conn (AddPeers refuses_C ["B"; "C"; "D"] st_B.1 st_B.2).2.2 =
    next_conn st_B.2 +
    length (filter (λ a, grpcGetters st_B.1 !! a = None ∧ refuses_C a = None)
              ["B"; "C"; "D"]).
Proof.
  apply (AddPeers_dials_new_addresses refuses_C ["B"; "C"; "D"] st_B.1 st_B.2).
  compute_done.
Defined.

Lemma AddPeers_RemovePeers_round_trip_witness :
  let st1 := (AddPeers refuses_C ["B"; "C"; "D"] pool_A world0).2 in
  let st2 := (RemovePeers ["B"; "C"; "D"] st1.1 st1.2).2 in
  grpcGetters st2.1 = grpcGetters pool_A ∧
  next_conn st2.2 = next_conn st1.2 ∧
  ∀ c, (next_conn world0 ≤ c < next_conn st2.2)%nat → c ∈ closed st2.2.
Proof.
  apply (AddPeers_RemovePeers_round_trip refuses_C ["B"; "C"; "D"] pool_A world0).
  intros a _. apply lookup_empty.
Defined.

Lemma pool_A_connected : members_connected pool_A.
Proof. intros a g; simpl. by rewrite lookup_empty. Qed.

Lemma members_hold_open_connections_witness :
  let rs := [ReqSetPeers ["B"; "C"]; ReqRemovePeers ["B"]; ReqAddPeers ["D"]] in
  connections_live (serve_all all_reachable rs (pool_A, world0)).1
                   (serve_all all_reachable rs (pool_A, world0)).2 ∧
  members_connected (serve_all all_reachable rs (pool_A, world0)).1 ∧
  (∀ g, g ∈ GetAll (serve_all all_reachable rs (pool_A, world0)).1 ↔
        ∃ a, grpcGetters (serve_all all_reachable rs (pool_A, world0)).1 !! a = Some g) ∧
  (∀ g, g ∈ GetAll (serve_all all_reachable rs (pool_A, world0)).1 →
        ∃ c, conn g = Some c ∧
             (c < next_conn (serve_all all_reachable rs (pool_A, world0)).2)%nat ∧
             c ∉ closed (serve_all all_reachable rs (pool_A, world0)).2) ∧
  (∀ g c, g ∈ GetAll (serve_all all_reachable rs (pool_A, world0)).1 → conn g = Some c →
          (c < next_conn (serve_all all_reachable rs (pool_A, world0)).2)%nat ∧
          c ∉ closed (serve_all all_reachable rs (pool_A, world0)).2).
Proof.
  apply (members_hold_open_connections all_reachable
           [ReqSetPeers ["B"; "C"]; ReqRemovePeers ["B"]; ReqAddPeers ["D"]]
           pool_A world0).
  - exact pool_A_live.
  - exact pool_A_connected.
Defined.

Lemma PickPeer_in_agreeing_pool_witness :
  ((PickPeer first_member st_BC.1 "k").2 = true ↔
     consistenthash.IsEmpty (peers st_BC.1) = false ∧
     first_member (peers st_BC.1) "k" ≠ self st_BC.1) ∧
  (PickPeer first_member st_BC.1 "k" = (None, false) ∨
   ∃ g, PickPeer first_member st_BC.1 "k" = (Some g, true) ∧
        g ∈ GetAll st_BC.1 ∧
        GetURL g = first_member (peers st_BC.1) "k" ∧
        GetURL g ≠ self st_BC.1).
Proof.
  apply (PickPeer_in_agreeing_pool first_member st_BC.1 "k").
  - exact first_member_in_ring.
  - exact st_BC_ring_matches.
  - exact st_BC_keyed.
Defined.

Lemma GetAll_snapshot_witness :
  NoDup (GetURL <$> GetAll st_BC.1) ∧
  ∀ a, a ∈ GetURL <$> GetAll st_BC.1 ↔ is_Some (grpcGetters st_BC.1 !! a).
Proof.
  apply (GetAll_snapshot st_BC.1). exact st_BC_keyed.
Defined.

Lemma NewGRPCPoolOptions_defaults_witness :
  ∃ gp p1,
    NewGRPCPoolOptions (Hash := unit) 50 "A" 7
      (Some {| Replicas := 0; HashFn := None;
               PeerDialOptions := Some [CustomDialOption 3] |}) process0 =
      (Returned gp, p1) ∧
    self gp = "A" ∧
    Replicas (opts gp) = 50%Z ∧
    HashFn (opts gp) = None ∧
    PeerDialOptions (opts gp) = Some [CustomDialOption 3] ∧
    peers gp = consistenthash.New (Replicas (opts gp)) (HashFn (opts gp)) ∧
    GetAll gp = [] ∧
    (∀ ring_owner key, PickPeer ring_owner gp key = (None, false)) ∧
    p1 = {| grpcPoolCreated := true; picker_registered := true; peer_servers := [7] |}.
Proof.
  apply (NewGRPCPoolOptions_defaults 50 "A" 7
           (Some {| Replicas := 0; HashFn := None;
                    PeerDialOptions := Some [CustomDialOption 3] |}) process0).
  reflexivity.
Defined.

Lemma ServerRequests_counts_calls_witness :
  ServerRequests <$>
    handle_all sample_Get sample_localRemove
      [RpcRetrieve {| rr_Group := "g"; rr_Key := "k" |};
       RpcDelete {| dr_Group := "g"; dr_Key := "k" |};
       RpcRetrieve {| rr_Group := "h"; rr_Key := "k" |};
       RpcRetrieve {| rr_Group := "g"; rr_Key := "k" |}]
      sample_groups !! "g" = Some 8%Z.
Proof.
  apply (ServerRequests_counts_calls sample_Get sample_localRemove
           [RpcRetrieve {| rr_Group := "g"; rr_Key := "k" |};
            RpcDelete {| dr_Group := "g"; dr_Key := "k" |};
            RpcRetrieve {| rr_Group := "h"; rr_Key := "k" |};
            RpcRetrieve {| rr_Group := "g"; rr_Key := "k" |}]
           sample_groups "g"
           {| ServerRequests := 5; local := {[ "k" := [Byte.x01] ]} |}).
  - vm_compute; reflexivity.
  - by vm_compute.
  - by vm_compute.
Defined.

Lemma constructed_pool_invariants_witness :
  let rs := [ReqAddPeers ["B"; "C"]; ReqRemovePeers ["B"]; ReqSetPeers ["C"; "D"]] in
  keyed_by_address (grpcGetters (serve_all refuses_C rs (pool_A, world0)).1) ∧
  connections_in_ring (serve_all refuses_C rs (pool_A, world0)).1 ∧
  ∀ a, is_Some (grpcGetters (serve_all refuses_C rs (pool_A, world0)).1 !! a) →
       refuses_C a = None.
Proof.
  apply (constructed_pool_invariants refuses_C 50 "A" 0 None process0
           {| grpcPoolCreated := true; picker_registered := true; peer_servers := [0] |}
           pool_A world0
           [ReqAddPeers ["B"; "C"]; ReqRemovePeers ["B"]; ReqSetPeers ["C"; "D"]]).
  reflexivity.
Defined.

Lemma AddPeers_as_Set_without_members_witness :
  grpcGetters (AddPeers refuses_C ["B"; "C"; "D"] pool_A world0).2.1 =
    grpcGetters (GRPCPool_Set refuses_C ["B"; "C"; "D"] pool_A world0).1 ∧
  ring_members (peers (AddPeers refuses_C ["B"; "C"; "D"] pool_A world0).2.1) =
    ring_members (peers pool_A) ++
    ring_members (peers (GRPCPool_Set refuses_C ["B"; "C"; "D"] pool_A world0).1) ∧
  next_conn (AddPeers refuses_C ["B"; "C"; "D"] pool_A world0).2.2 =
    next_conn (GRPCPool_Set refuses_C ["B"; "C"; "D"] pool_A world0).2 ∧
  dialed (AddPeers refuses_C ["B"; "C"; "D"] pool_A world0).2.2 =
    dialed (GRPCPool_Set refuses_C ["B"; "C"; "D"] pool_A world0).2 ∧
  closed (AddPeers refuses_C ["B"; "C"; "D"] pool_A world0).2.2 =
    closed (GRPCPool_Set refuses_C ["B"; "C"; "D"] pool_A world0).2.
Proof.
  apply (AddPeers_as_Set_without_members refuses_C ["B"; "C"; "D"] pool_A world0).
  - compute_done.
  - reflexivity.
Defined.

Lemma st_B_live : connections_live st_B.1 st_B.2.
Proof.
  unfold st_B, AddPeers; cbn [fst snd]. apply AddPeers_live. exact pool_A_live.
Qed.

Lemma SetPeers_repeated_address_recreated_witness :
  let st1 := (SetPeers all_reachable ["B"; "B"] st_B.1 st_B.2).2 in
  let st2 := (SetPeers all_reachable ["B"; "B"] st1.1 st1.2).2 in
  ∃ c1 c2,
    grpcGetters st1.1 !! "B" = Some {| address := "B"; conn := Some c1 |} ∧
    grpcGetters st2.1 !! "B" = Some {| address := "B"; conn := Some c2 |} ∧
    (c1 < c2)%nat ∧
    (next_conn st1.2 < next_conn st2.2)%nat ∧
    (c1 ∉ closed st2.2) ∧
    ∀ b g, grpcGetters st2.1 !! b = Some g → conn g ≠ Some c1.
Proof.
  apply (SetPeers_repeated_address_recreated all_reachable "B" st_B.1 st_B.2).
  - reflexivity.
  - exact st_B_live.
Defined.

Lemma SetPeers_failed_dial_of_member_witness :
  (SetPeers refuses_B ["B"; "B"] st_B.1 st_B.2).1 = Ok MkAck ∧
  dialed (SetPeers refuses_B ["B"; "B"] st_B.1 st_B.2).2.2 = dialed st_B.2 ++ ["B"] ∧
  Warn_open_failed "B" (ErrConnect "B" "connection refused")
    ∈ logged (SetPeers refuses_B ["B"; "B"] st_B.1 st_B.2).2.2 ∧
  grpcGetters (SetPeers refuses_B ["B"; "B"] st_B.1 st_B.2).2.1 !! "B" =
    Some {| address := "B"; conn := Some 0 |} ∧
  "B" ∈ ring_members (peers (SetPeers refuses_B ["B"; "B"] st_B.1 st_B.2).2.1).
Proof.
  apply (SetPeers_failed_dial_of_member refuses_B "B" "connection refused"
           {| address := "B"; conn := Some 0 |} st_B.1 st_B.2).
  - vm_compute; reflexivity.
  - reflexivity.
Defined.
